(** * Astrometric orbit fit: the notebook's detection loop and unit conversions

    A shallow embedding of [01_simulated_astrometric_orbit_fit.ipynb].  The
    notebook drives three libraries (kepmodel, spleaf, pystrometry); the
    code it contains itself is the construction of the single-star model, the
    periodogram settings, the detection loop and the mass computation.

    Python floats are IEEE binary64 and are modelled by Rocq's primitive
    floats, so the notebook's arithmetic is evaluated bit for bit.  Python
    objects live in a heap of cells addressed by object identity; every
    method is a computation in a state monad over that heap, and a Python
    exception is an outcome that keeps the heap as it was when raised. *)

From Stdlib Require Import Floats ZArith Lia Uint63.
From stdpp Require Import base option list strings gmap pretty.

#[local] Set Warnings "-inexact-float".
#[local] Open Scope Z_scope.

(** ** Python and numpy arithmetic *)

Module Py.

(** [float(z)] for a Python int. *)
Definition float_of_int (z : Z) : float :=
  if (z <? 0)%Z
  then PrimFloat.opp (PrimFloat.of_uint63 (Uint63.of_Z (- z)))
  else PrimFloat.of_uint63 (Uint63.of_Z z).

(** [np.pi]: the binary64 value nearest to pi. *)
Definition np_pi : float := 0x1.921fb54442d18p+1%float.

(** [x > y] on floats; false as soon as one side is NaN. *)
Definition gt (x y : float) : bool := PrimFloat.ltb y x.

(** [a * b] on two ndarrays of the same shape. *)
Definition np_mul (a b : list float) : list float :=
  zip_with PrimFloat.mul a b.

(** [a * c] for an ndarray (or pandas column) [a] and a scalar [c]. *)
Definition np_scale (a : list float) (c : float) : list float :=
  (fun x => PrimFloat.mul x c) <$> a.

(** [c / a] for a scalar [c] and an ndarray [a]. *)
Definition np_rdiv (c : float) (a : list float) : list float :=
  (fun x => PrimFloat.div c x) <$> a.

(** [len] consecutive integers from [start], as floats. *)
Fixpoint arange_from (start : Z) (len : nat) : list float :=
  match len with
  | O => []
  | S len' => float_of_int start :: arange_from (start + 1) len'
  end.

(** [np.arange(n)] as floats: 0, 1, ..., n - 1. *)
Definition np_arange (n : Z) : list float := arange_from 0 (Z.to_nat n).

(** The scan of numpy's argmax over doubles: [best] is the running
    maximum, found at [ibest]; [i] is the index of the head of [l].  A
    candidate replaces the maximum when [x <= best] is false, which
    includes a NaN candidate; once the maximum is a NaN the scan stops. *)
Fixpoint argmax_scan (best : float) (ibest i : nat) (l : list float) : nat :=
  match l with
  | [] => ibest
  | x :: l' =>
      if PrimFloat.is_nan best then ibest
      else if negb (PrimFloat.leb x best)
           then argmax_scan x i (S i) l'
           else argmax_scan best ibest (S i) l'
  end.

(** [np.argmax(a)]; [None] is the ValueError on an empty array. *)
Definition np_argmax (a : list float) : option nat :=
  match a with
  | [] => None
  | x :: l => Some (argmax_scan x 0 1 l)
  end.

(** [a.max()], which propagates NaN; [None] on an empty array. *)
Definition np_max (a : list float) : option float :=
  match a with
  | [] => None
  | x :: l =>
      Some (fold_left
              (fun m y => if PrimFloat.is_nan m then m
                          else if negb (PrimFloat.leb y m) then y else m)
              l x)
  end.

(** The order numpy's argmax and max work with: NaN is on top, other
    values compare as floats. *)
Definition np_le (x y : float) : bool :=
  PrimFloat.is_nan y || PrimFloat.leb x y.

End Py.

(** ** Notebook constants (cell "Add the Keplerian motion to the model") *)

Definition Pmin : Z := 5.
Definition Pmax : Z := 50000.
Definition nfreq : Z := 10000.

Definition nu0 : float :=
  (Py.float_of_int 2 * Py.np_pi / Py.float_of_int Pmax)%float.

Definition dnu : float :=
  ((Py.float_of_int 2 * Py.np_pi / Py.float_of_int Pmin - nu0)
   / Py.float_of_int (nfreq - 1))%float.

Definition fap_threshold : float := 1e-3%float.

(** [param] of the loop body: the Campbell parameter set. *)
Definition param : list string :=
  ["P"; "Tp"; "as"; "e"; "w"; "i"; "bigw"]%string.

(** [u.year.to(u.day)]: astropy's year is the Julian year. *)
Definition year_to_day : float := 365.25%float.

(** ** Objects, heap and the call trace *)

(** Object identity ([id(obj)]). *)
Definition loc := nat.

(** One Keplerian component: [_param] (names) and [_par] (values), as the
    notebook reads them from [model.keplerian['0']]. *)
Record Keplerian := { k_param : list string; k_par : list float }.

(** Attributes of an [AstroModel] object.  The observation arrays are
    never written after construction and are kept by value; every mutable
    part is an object of its own, referenced by identity. *)
Record AstroObj := {
  o_t : list float;
  o_y : list float;
  o_cpsi : list float;
  o_spsi : list float;
  o_cov : loc;
  o_lin_name : loc;
  o_lin_M : loc;
  o_lin_par : loc;
  o_fit_param : loc;
  o_keplerian : loc
}.

Inductive cell :=
| CCov (err : list float) (jit_sig : float)   (* spleaf Cov: Error + Jitter *)
| CNames (l : list string)                    (* a Python list of str *)
| CMatrix (cols : list (list float))          (* basis vectors, one per regressor *)
| CArray (a : list float)                     (* an ndarray of floats *)
| CKeplerian (k : Keplerian)
| CDict (d : list (string * loc))             (* insertion-ordered dict *)
| CModel (o : AstroObj).

(** The state of a model as a value: what one reads by following every
    reference from the model object. *)
Record AstroModel := {
  m_t : list float;
  m_y : list float;
  m_cpsi : list float;
  m_spsi : list float;
  m_cov_err : list float;
  m_cov_jit_sig : float;
  m_lin_name : list string;
  m_lin_M : list (list float);
  m_lin_par : list float;
  m_fit_param : list string;
  m_keplerian : list (string * Keplerian)
}.

(** Library calls, in the order they are made. *)
Inductive call :=
| CallAddLin (self : loc) (name : string)
| CallResiduals (self : loc)
| CallPeriodogram (self : loc) (nu0 dnu : float) (nfreq : Z)
| CallFap (self : loc) (peak numax : float)
| CallAddKeplerianFromPeriod (self : loc) (P : float)
| CallFit (self : loc)
| CallSetKeplerianParam (self : loc) (name : string) (param : list string).

Record world := {
  heap : gmap loc cell;
  trace : list call
}.

Inductive exn := KeyError | ValueError | TypeError.

Inductive outcome (A : Type) :=
| Ok (a : A) (w : world)
| Raise (e : exn) (w : world).
Arguments Ok {A} a w.
Arguments Raise {A} e w.

Definition world_of {A} (r : outcome A) : world :=
  match r with Ok _ w => w | Raise _ w => w end.

Definition M (A : Type) : Type := world -> outcome A.

Definition ret {A} (a : A) : M A := fun w => Ok a w.

Definition bind {A B} (m : M A) (k : A -> M B) : M B :=
  fun w => match m w with
           | Ok a w' => k a w'
           | Raise e w' => Raise e w'
           end.

Definition raise {A} (e : exn) : M A := fun w => Raise e w.

#[global] Instance M_ret : MRet M := @ret.
#[global] Instance M_bind : MBind M := fun A B k m => bind m k.

(** [for x in xs: body(x)]. *)
Fixpoint for_each {A} (xs : list A) (body : A -> M unit) : M unit :=
  match xs with
  | [] => ret tt
  | x :: xs' => bind (body x) (fun _ => for_each xs' body)
  end.

(** [[f(x) for x in xs]]. *)
Fixpoint collect {A B} (f : A -> M B) (xs : list A) : M (list B) :=
  match xs with
  | [] => ret []
  | x :: xs' => bind (f x) (fun y => bind (collect f xs') (fun ys => ret (y :: ys)))
  end.

Definition of_option {A} (e : exn) (o : option A) : M A :=
  match o with Some a => ret a | None => raise e end.

Definition emit (c : call) : M unit :=
  fun w => Ok tt {| heap := heap w; trace := trace w ++ [c] |}.

(** A new object: its identity is one no live object has. *)
Definition alloc (c : cell) : M loc :=
  fun w => let l := fresh (dom (heap w)) in
           Ok l {| heap := <[l := c]> (heap w); trace := trace w |}.

Definition load (l : loc) : M cell :=
  fun w => match heap w !! l with
           | Some c => Ok c w
           | None => Raise TypeError w
           end.

(** Writing into an existing object. *)
Definition store (l : loc) (c : cell) : M unit :=
  fun w => match heap w !! l with
           | Some _ => Ok tt {| heap := <[l := c]> (heap w); trace := trace w |}
           | None => Raise TypeError w
           end.

Definition load_cov (l : loc) : M (list float * float) :=
  c ← load l; match c with CCov e j => ret (e, j) | _ => raise TypeError end.
Definition load_names (l : loc) : M (list string) :=
  c ← load l; match c with CNames x => ret x | _ => raise TypeError end.
Definition load_matrix (l : loc) : M (list (list float)) :=
  c ← load l; match c with CMatrix x => ret x | _ => raise TypeError end.
Definition load_array (l : loc) : M (list float) :=
  c ← load l; match c with CArray x => ret x | _ => raise TypeError end.
Definition load_keplerian (l : loc) : M Keplerian :=
  c ← load l; match c with CKeplerian x => ret x | _ => raise TypeError end.
Definition load_dict (l : loc) : M (list (string * loc)) :=
  c ← load l; match c with CDict x => ret x | _ => raise TypeError end.
Definition load_model (l : loc) : M AstroObj :=
  c ← load l; match c with CModel x => ret x | _ => raise TypeError end.

(** [d[key]]. *)
Fixpoint dict_get {V} (key : string) (d : list (string * V)) : option V :=
  match d with
  | [] => None
  | (k, v) :: d' => if decide (k = key) then Some v else dict_get key d'
  end.

(** [d[key] = v]: an existing key keeps its place, a new one goes last. *)
Fixpoint dict_set {V} (key : string) (v : V) (d : list (string * V)) : list (string * V) :=
  match d with
  | [] => [(key, v)]
  | (k, v') :: d' =>
      if decide (k = key) then (k, v) :: d' else (k, v') :: dict_set key v d'
  end.

(** Reading the whole state of the model at [self]. *)
Definition snapshot (self : loc) : M AstroModel :=
  o ← load_model self;
  '(err, jit) ← load_cov (o_cov o);
  names ← load_names (o_lin_name o);
  cols ← load_matrix (o_lin_M o);
  par ← load_array (o_lin_par o);
  fp ← load_names (o_fit_param o);
  d ← load_dict (o_keplerian o);
  ks ← collect (fun '(label, l) => k ← load_keplerian l; ret (label, k)) d;
  ret {| m_t := o_t o; m_y := o_y o; m_cpsi := o_cpsi o; m_spsi := o_spsi o;
         m_cov_err := err; m_cov_jit_sig := jit;
         m_lin_name := names; m_lin_M := cols; m_lin_par := par;
         m_fit_param := fp; m_keplerian := ks |}.

(** ** kepmodel *)

(** What [fit] hands back: new linear coefficients, a new jitter, and new
    parameter values for each Keplerian component. *)
Record FitResult := {
  fit_lin_par : list float;
  fit_jit_sig : float;
  fit_kep_par : string -> Keplerian -> list float
}.

(** Modelled from the spec: kepmodel is a dependency of the notebook and
    its code is not among the sources.  What its methods compute (least
    squares, periodogram power, false-alarm probability, parameter
    conversion) is left open here: any functions of the model's state.
    What the methods do to the model's objects is written out below from
    section 4.4 of the specification.  A failure inside the numerics (a
    singular system, an optimizer that does not converge) would end the cell
    with an exception; these runs are not represented. *)
Class Kepmodel := {
  residuals_of : AstroModel -> list float;
  power_at : AstroModel -> float -> float;
  fap_of : AstroModel -> float -> float -> float;
  keplerian_default_param : list string;
  keplerian_from_period : AstroModel -> float -> list float;
  fit_solution : AstroModel -> FitResult;
  convert_par : Keplerian -> list string -> list float
}.

(** Modelled from the spec: the names under which kepmodel lists the
    parameters of the Keplerian component [name] in [fit_param]. *)
Definition kep_names (name : string) (ps : list string) : list string :=
  (fun p => "kep." +:+ name +:+ "." +:+ p)%string <$> ps.

(** Modelled from the spec: the trial frequencies of kepmodel's
    [periodogram(nu0, dnu, nfreq)], [nfreq] values uniformly spaced from
    [nu0] by step [dnu]: [nu0 + np.arange(nfreq) * dnu]. *)
Definition periodogram_grid (nu0 dnu : float) (nfreq : Z) : list float :=
  (fun k => PrimFloat.add nu0 (PrimFloat.mul k dnu)) <$> Py.np_arange nfreq.

Section Methods.
Context `{Kepmodel}.

(** Modelled from the spec: kepmodel's constructor
    [AstroModel(t, y, cpsi, spsi, err=Error(err), jit=Jitter(jit))], a model
    with no regressor, no free parameter and no Keplerian component. *)
Definition AstrometricModel (t y cpsi spsi err : list float) (jit : float) : M loc :=
  cov ← alloc (CCov err jit);
  ln ← alloc (CNames []);
  lM ← alloc (CMatrix []);
  lp ← alloc (CArray []);
  fp ← alloc (CNames []);
  kd ← alloc (CDict []);
  alloc (CModel {| o_t := t; o_y := y; o_cpsi := cpsi; o_spsi := spsi;
                   o_cov := cov; o_lin_name := ln; o_lin_M := lM;
                   o_lin_par := lp; o_fit_param := fp; o_keplerian := kd |}).

(** Modelled from the spec: kepmodel's [self.add_lin(derivative, name)],
    a new regressor with coefficient 0, marked free.  A name already present
    or a basis vector of the wrong length is refused. *)
Definition add_lin (self : loc) (derivative : list float) (name : string) : M unit :=
  emit (CallAddLin self name);;
  o ← load_model self;
  names ← load_names (o_lin_name o);
  cols ← load_matrix (o_lin_M o);
  par ← load_array (o_lin_par o);
  fp ← load_names (o_fit_param o);
  if decide (name ∈ names) then raise ValueError
  else if decide (length derivative = length (o_t o)) then
    store (o_lin_name o) (CNames (names ++ [name]));;
    store (o_lin_M o) (CMatrix (cols ++ [derivative]));;
    store (o_lin_par o) (CArray (par ++ [Py.float_of_int 0]));;
    store (o_fit_param o) (CNames (fp ++ ["lin." +:+ name]%string))
  else raise ValueError.

(** [self.fit_param += names]: the list object is extended in place. *)
Definition fit_param_iadd (self : loc) (names : list string) : M unit :=
  o ← load_model self;
  fp ← load_names (o_fit_param o);
  store (o_fit_param o) (CNames (fp ++ names)).

(** Modelled from the spec: kepmodel's [self.fit()], which overwrites the
    parameter values in place. *)
Definition fit (self : loc) : M unit :=
  emit (CallFit self);;
  s ← snapshot self;
  o ← load_model self;
  let r := fit_solution s in
  store (o_lin_par o) (CArray (fit_lin_par r));;
  store (o_cov o) (CCov (m_cov_err s) (fit_jit_sig r));;
  d ← load_dict (o_keplerian o);
  for_each d (fun '(label, l) =>
    k ← load_keplerian l;
    store l (CKeplerian {| k_param := k_param k;
                           k_par := fit_kep_par r label k |})).

(** Modelled from the spec: kepmodel's [self.residuals()], a read. *)
Definition residuals (self : loc) : M (list float) :=
  emit (CallResiduals self);;
  s ← snapshot self;
  mret (residuals_of s).

(** Modelled from the spec: kepmodel's [self.periodogram(nu0, dnu, nfreq)],
    a read that returns the frequencies and the power at each. *)
Definition periodogram (self : loc) (nu0 dnu : float) (nfreq : Z)
  : M (list float * list float) :=
  emit (CallPeriodogram self nu0 dnu nfreq);;
  s ← snapshot self;
  let nu := periodogram_grid nu0 dnu nfreq in
  mret (nu, power_at s <$> nu).

(** Modelled from the spec: kepmodel's [self.fap(peak, numax)], a read. *)
Definition fap (self : loc) (peak numax : float) : M float :=
  emit (CallFap self peak numax);;
  s ← snapshot self;
  mret (fap_of s peak numax).

(** Modelled from the spec: kepmodel's [self.add_keplerian_from_period(P)],
    which appends a new component, named after the number of components
    already there, and marks its parameters free. *)
Definition add_keplerian_from_period (self : loc) (P : float) : M unit :=
  emit (CallAddKeplerianFromPeriod self P);;
  s ← snapshot self;
  o ← load_model self;
  d ← load_dict (o_keplerian o);
  let name := pretty (length d) in
  l ← alloc (CKeplerian {| k_param := keplerian_default_param;
                           k_par := keplerian_from_period s P |});
  store (o_keplerian o) (CDict (dict_set name l d));;
  fp ← load_names (o_fit_param o);
  store (o_fit_param o) (CNames (fp ++ kep_names name keplerian_default_param)).

(** Modelled from the spec: kepmodel's
    [self.set_keplerian_param(name, param=param)]; the component changes
    parametrization, its values are converted and its free names renamed. *)
Definition set_keplerian_param (self : loc) (name : string) (param : list string) : M unit :=
  emit (CallSetKeplerianParam self name param);;
  o ← load_model self;
  d ← load_dict (o_keplerian o);
  l ← of_option KeyError (dict_get name d);
  k ← load_keplerian l;
  store l (CKeplerian {| k_param := param; k_par := convert_par k param |});;
  fp ← load_names (o_fit_param o);
  store (o_fit_param o)
        (CNames (filter (fun n => n ∉ kep_names name (k_param k)) fp
                 ++ kep_names name param)).

End Methods.

(** Python's [copy.deepcopy(self)] on a model, whose objects form a tree:
    every object the model refers to is copied into a new object, and the
    new model refers to the copies. *)
Definition deepcopy (self : loc) : M loc :=
  o ← load_model self;
  '(err, jit) ← load_cov (o_cov o);
  cov ← alloc (CCov err jit);
  names ← load_names (o_lin_name o);
  ln ← alloc (CNames names);
  cols ← load_matrix (o_lin_M o);
  lM ← alloc (CMatrix cols);
  par ← load_array (o_lin_par o);
  lp ← alloc (CArray par);
  fpn ← load_names (o_fit_param o);
  fp ← alloc (CNames fpn);
  d ← load_dict (o_keplerian o);
  d' ← collect (fun '(label, l) =>
                  k ← load_keplerian l; l' ← alloc (CKeplerian k); mret (label, l')) d;
  kd ← alloc (CDict d');
  alloc (CModel {| o_t := o_t o; o_y := o_y o; o_cpsi := o_cpsi o; o_spsi := o_spsi o;
                   o_cov := cov; o_lin_name := ln; o_lin_M := lM;
                   o_lin_par := lp; o_fit_param := fp; o_keplerian := kd |}).

(** ** The notebook *)

(** One row of [simulated_astrometry]; a column is read off the rows, so
    all columns have the length of the frame. *)
Record Row := {
  relative_time_year : float;
  centroidPosAl_mas : float;
  cpsi_obs : float;
  spsi_obs : float;
  parallaxFactorAlongScan : float;
  centroidPosAlError_mas : float
}.

Abbreviation DataFrame := (list Row).

Definition col (f : Row -> float) (df : DataFrame) : list float := f <$> df.

Inductive flow := Next | Break.

(** [for k in ks: body(k)], where the body may [break]. *)
Fixpoint for_range (ks : list nat) (body : nat -> M flow) : M unit :=
  match ks with
  | [] => ret tt
  | k :: ks' =>
      bind (body k) (fun f => match f with
                              | Break => ret tt
                              | Next => for_range ks' body
                              end)
  end.

Section Notebook.
Context `{Kepmodel}.

(** Cell "First fit the single-star model".  The closing [show_param()],
    which prints the fitted values, is left out, as printing is throughout. *)
Definition single_star_cell (simulated_astrometry : DataFrame) : M loc :=
  let relative_time_day :=
    Py.np_scale (col relative_time_year simulated_astrometry) year_to_day in
  single_star_model ←
    AstrometricModel relative_time_day
                     (col centroidPosAl_mas simulated_astrometry)
                     (col cpsi_obs simulated_astrometry)
                     (col spsi_obs simulated_astrometry)
                     (col centroidPosAlError_mas simulated_astrometry)
                     0.05%float;
  add_lin single_star_model (col spsi_obs simulated_astrometry) "ra";;
  add_lin single_star_model (col cpsi_obs simulated_astrometry) "dec";;
  add_lin single_star_model
          (col parallaxFactorAlongScan simulated_astrometry) "parallax";;
  add_lin single_star_model
          (Py.np_mul (col relative_time_year simulated_astrometry)
                     (col spsi_obs simulated_astrometry)) "mura";;
  add_lin single_star_model
          (Py.np_mul (col relative_time_year simulated_astrometry)
                     (col cpsi_obs simulated_astrometry)) "mudec";;
  fit_param_iadd single_star_model ["cov.jit.sig"%string];;
  fit single_star_model;;
  mret single_star_model.

(** The body of [for kpla in range(...)].  Plotting and printing are left
    out; [P[kmax]] is first read for the figure, before the test. *)
Definition detection_iteration (model : loc) (kpla : nat) : M flow :=
  res ← residuals model;
  '(nu, power) ← periodogram model nu0 dnu nfreq;
  let P := Py.np_rdiv (PrimFloat.mul (Py.float_of_int 2) Py.np_pi) nu in
  kmax ← of_option ValueError (Py.np_argmax power);
  peak ← of_option ValueError (power !! kmax);
  numax ← of_option ValueError (Py.np_max nu);
  faplvl ← fap model peak numax;
  Pkmax ← of_option ValueError (P !! kmax);
  if Py.gt faplvl fap_threshold then mret Break
  else
    add_keplerian_from_period model Pkmax;;
    fit model;;
    set_keplerian_param model (pretty kpla) param;;
    mret Next.

(** [for kpla in range(n): ...]. *)
Definition detection_loop (model : loc) (n : nat) : M unit :=
  for_range (seq 0 n) (detection_iteration model).

(** Cell "Add the Keplerian motion to the model": the loop runs over
    [range(1)]. *)
Definition keplerian_cell (single_star_model : loc) : M loc :=
  model ← deepcopy single_star_model;
  detection_loop model 1;;
  mret model.

(** The two cells in sequence. *)
Definition notebook (simulated_astrometry : DataFrame) : M (loc * loc) :=
  single_star_model ← single_star_cell simulated_astrometry;
  model ← keplerian_cell single_star_model;
  mret (single_star_model, model).

End Notebook.

(** The basis vector registered under [name]. *)
Definition basis (name : string) (s : AstroModel) : option (list float) :=
  dict_get name (zip (m_lin_name s) (m_lin_M s)).

(** [len(self.keplerian)], read off the heap; 0 when [self] is not a model. *)
Definition nkep (self : loc) (h : gmap loc cell) : nat :=
  match h !! self with
  | Some (CModel o) =>
      match h !! o_keplerian o with
      | Some (CDict d) => length d
      | _ => 0%nat
      end
  | _ => 0%nat
  end.

(** Calls to [add_keplerian_from_period] and to [periodogram] in a trace. *)
Definition is_add_keplerian (c : call) : bool :=
  match c with CallAddKeplerianFromPeriod _ _ => true | _ => false end.
Definition is_periodogram (c : call) : bool :=
  match c with CallPeriodogram _ _ _ _ => true | _ => false end.
Definition count (p : call -> bool) (tr : list call) : nat :=
  length (filter (fun c => p c = true) tr).

(** ** The values one iteration works with, as functions of the model's state *)

(** [nu] and [P = 2 * np.pi / nu] of the loop body. *)
Definition nu : list float := periodogram_grid nu0 dnu nfreq.
Definition P : list float :=
  Py.np_rdiv (PrimFloat.mul (Py.float_of_int 2) Py.np_pi) nu.

Section Plan.
Context `{Kepmodel}.

(** [power], [kmax] and [faplvl] when the model is in state [s]. *)
Definition power (s : AstroModel) : list float := power_at s <$> nu.

Definition kmax (s : AstroModel) : option nat := Py.np_argmax (power s).

Definition faplvl (s : AstroModel) : option float :=
  k ← kmax s;
  peak ← power s !! k;
  numax ← Py.np_max nu;
  Some (fap_of s peak numax).

(** The three calls every iteration starts with. *)
Definition search_calls (model : loc) (s : AstroModel) : list call :=
  [CallResiduals model; CallPeriodogram model nu0 dnu nfreq]
  ++ match kmax s, Py.np_max nu with
     | Some k, Some numax =>
         match power s !! k with
         | Some peak => [CallFap model peak numax]
         | None => []
         end
     | _, _ => []
     end.

End Plan.

(** ** pystrometry *)

Inductive error := InvalidParameter.

(** Modelled from the spec: pystrometry's [convert_from_angular_to_linear]
    (the specification's [angular_to_linear]) is a dependency whose code is
    not among the sources.  Section 4.6: a0/parallax gives the semi-major
    axis scaled by distance; parallax must be positive, else Invalid
    Parameter.  [unit] is the length, in linear units, of one unit of
    a0/parallax; the specification leaves its value open. *)
Definition convert_from_angular_to_linear
    (unit a0_mas parallax_mas : float) : error + float :=
  if PrimFloat.ltb (Py.float_of_int 0) parallax_mas
  then inr (PrimFloat.mul (PrimFloat.div a0_mas parallax_mas) unit)
  else inl InvalidParameter.


(** ** Vocabulary of the properties *)

(** [wp m Q E w]: run from [w], [m] either returns [a] in a world satisfying
    [Q a] or raises in a world satisfying [E]. *)
Definition wp {A} (m : M A) (Q : A -> world -> Prop) (E : world -> Prop)
    (w : world) : Prop :=
  match m w with
  | Ok a w' => Q a w'
  | Raise _ w' => E w'
  end.

Definition log (c : call) (w : world) : world :=
  {| heap := heap w; trace := trace w ++ [c] |}.

Definition put (l : loc) (c : cell) (w : world) : world :=
  {| heap := <[l := c]> (heap w); trace := trace w |}.

(** The state of the model at [self] in heap [h], when there is one. *)
Definition state_of (self : loc) (h : gmap loc cell) : option AstroModel :=
  match snapshot self {| heap := h; trace := [] |} with
  | Ok s _ => Some s
  | Raise _ _ => None
  end.

(** The objects a cell refers to. *)
Definition refs (c : cell) : list loc :=
  match c with
  | CModel o => [o_cov o; o_lin_name o; o_lin_M o; o_lin_par o;
                 o_fit_param o; o_keplerian o]
  | CDict d => d.*2
  | _ => []
  end.

(** [h] extends [h0] by new objects that refer to new objects only: the
    objects of [h0] are as they were, and nothing new points into [h0]. *)
Definition apart (h0 h : gmap loc cell) : Prop :=
  h0 ⊆ h /\
  forall l c, h !! l = Some c -> h0 !! l = None ->
              Forall (fun r => h0 !! r = None) (refs c).

(** [m] raises the measure [mu] by at most [k]. *)
Definition rises {A} (mu : world -> nat) (k : nat) (m : M A) : Prop :=
  forall w, (mu (world_of (m w)) <= mu w + k)%nat.

(** [m] only appends to the trace. *)
Definition extends {A} (m : M A) : Prop :=
  forall w, exists evs, trace (world_of (m w)) = trace w ++ evs.

(** [m] keeps the heap apart from [h0], and what it returns satisfies [R]. *)
Definition keeps {A} (h0 : gmap loc cell) (m : M A) (R : A -> Prop) : Prop :=
  forall w, apart h0 (heap w) ->
            wp m (fun a w' => apart h0 (heap w') /\ R a)
                 (fun w' => apart h0 (heap w')) w.

(** The heap [h] holds at [self] a model whose attributes are [o], whose
    dictionary of components is [d], and whose state is [s]. *)
Definition owns (h : gmap loc cell) (self : loc) (o : AstroObj)
    (d : list (string * loc)) (s : AstroModel) : Prop :=
  h !! self = Some (CModel o) /\
  h !! o_cov o = Some (CCov (m_cov_err s) (m_cov_jit_sig s)) /\
  h !! o_lin_name o = Some (CNames (m_lin_name s)) /\
  h !! o_lin_M o = Some (CMatrix (m_lin_M s)) /\
  h !! o_lin_par o = Some (CArray (m_lin_par s)) /\
  h !! o_fit_param o = Some (CNames (m_fit_param s)) /\
  h !! o_keplerian o = Some (CDict d) /\
  Forall2 (fun e ek => ek.1 = e.1 /\ h !! e.2 = Some (CKeplerian ek.2))
          d (m_keplerian s) /\
  m_t s = o_t o /\ m_y s = o_y o /\ m_cpsi s = o_cpsi o /\ m_spsi s = o_spsi o.

(** Cells that refer to no other object. *)
Definition leaf (c : cell) : Prop :=
  match c with
  | CDict _ | CModel _ => False
  | _ => True
  end.

(** 1 for a call that [p] selects, else 0. *)
Definition weight (p : call -> bool) (c : call) : nat :=
  if p c then 1%nat else 0%nat.

(** ** The methods as functions of the state *)

(** The state of a newly constructed model. *)
Definition new_state (t y cpsi spsi err : list float) (jit : float) : AstroModel :=
  {| m_t := t; m_y := y; m_cpsi := cpsi; m_spsi := spsi;
     m_cov_err := err; m_cov_jit_sig := jit;
     m_lin_name := []; m_lin_M := []; m_lin_par := [];
     m_fit_param := []; m_keplerian := [] |}.

Definition add_lin_state (derivative : list float) (name : string)
    (s : AstroModel) : AstroModel :=
  {| m_t := m_t s; m_y := m_y s; m_cpsi := m_cpsi s; m_spsi := m_spsi s;
     m_cov_err := m_cov_err s; m_cov_jit_sig := m_cov_jit_sig s;
     m_lin_name := m_lin_name s ++ [name];
     m_lin_M := m_lin_M s ++ [derivative];
     m_lin_par := m_lin_par s ++ [Py.float_of_int 0];
     m_fit_param := m_fit_param s ++ ["lin." +:+ name]%string;
     m_keplerian := m_keplerian s |}.

Definition fit_param_iadd_state (names : list string) (s : AstroModel) : AstroModel :=
  {| m_t := m_t s; m_y := m_y s; m_cpsi := m_cpsi s; m_spsi := m_spsi s;
     m_cov_err := m_cov_err s; m_cov_jit_sig := m_cov_jit_sig s;
     m_lin_name := m_lin_name s; m_lin_M := m_lin_M s;
     m_lin_par := m_lin_par s;
     m_fit_param := m_fit_param s ++ names;
     m_keplerian := m_keplerian s |}.

(** [fit] on a model without Keplerian components. *)
Definition fit_state `{Kepmodel} (s : AstroModel) : AstroModel :=
  {| m_t := m_t s; m_y := m_y s; m_cpsi := m_cpsi s; m_spsi := m_spsi s;
     m_cov_err := m_cov_err s;
     m_cov_jit_sig := fit_jit_sig (fit_solution s);
     m_lin_name := m_lin_name s; m_lin_M := m_lin_M s;
     m_lin_par := fit_lin_par (fit_solution s);
     m_fit_param := m_fit_param s;
     m_keplerian := [] |}.

(** The state the single-star cell leaves the model in. *)
Definition single_star_state `{Kepmodel} (df : DataFrame) : AstroModel :=
  fit_state
    (fit_param_iadd_state ["cov.jit.sig"%string]
       (add_lin_state
          (Py.np_mul (col relative_time_year df) (col cpsi_obs df)) "mudec"
          (add_lin_state
             (Py.np_mul (col relative_time_year df) (col spsi_obs df)) "mura"
             (add_lin_state (col parallaxFactorAlongScan df) "parallax"
                (add_lin_state (col cpsi_obs df) "dec"
                   (add_lin_state (col spsi_obs df) "ra"
                      (new_state
                         (Py.np_scale (col relative_time_year df) year_to_day)
                         (col centroidPosAl_mas df)
                         (col cpsi_obs df) (col spsi_obs df)
                         (col centroidPosAlError_mas df) 0.05%float))))))).

(** ** A small concrete run *)

Module Sample.

(** A stand-in for kepmodel's numerics whose false-alarm probability is
    the constant [f]; its power peaks at the last trial frequency. *)
Definition numerics (f : float) : Kepmodel := {|
  residuals_of s := m_y s;
  power_at s x := PrimFloat.abs (PrimFloat.sub x 0.5%float);
  fap_of s peak numax := f;
  keplerian_default_param := ["P"; "la0"; "e"]%string;
  keplerian_from_period s p := [p; 0%float; 0%float];
  fit_solution s :=
    {| fit_lin_par := (fun _ => 1%float) <$> m_lin_par s;
       fit_jit_sig := 0.1%float;
       fit_kep_par := fun _ k => k_par k |};
  convert_par k ps := (fun _ => 1%float) <$> ps
|}.

Definition row (year : float) : Row := {|
  relative_time_year := year;
  centroidPosAl_mas := 1%float;
  cpsi_obs := 0.5%float;
  spsi_obs := 0.25%float;
  parallaxFactorAlongScan := 0.1%float;
  centroidPosAlError_mas := 0.01%float
|}.

Definition simulated_astrometry : DataFrame := [row 0.5%float; row 1.5%float].

Definition empty_world : world := {| heap := ∅; trace := [] |}.

(** The world after the single-star cell, and the model it built. *)
Definition before (f : float) : world :=
  world_of (@single_star_cell (numerics f) simulated_astrometry empty_world).

Definition single_star_model : loc := 6%nat.

(** The state of the fitted single-star model. *)
Definition state (f : float) : AstroModel :=
  match state_of single_star_model (heap (before f)) with
  | Some s => s
  | None => {| m_t := []; m_y := []; m_cpsi := []; m_spsi := [];
               m_cov_err := []; m_cov_jit_sig := 0%float;
               m_lin_name := []; m_lin_M := []; m_lin_par := [];
               m_fit_param := []; m_keplerian := [] |}
  end.

End Sample.


(** ** The methods on a model with Keplerian components *)

(** A model's objects do not alias one another: the two lists of names
    are two objects, and each component is an object of its own. *)
Definition separate (o : AstroObj) (d : list (string * loc)) : Prop :=
  o_lin_name o <> o_fit_param o /\ NoDup d.*2.

Section States.
Context `{Kepmodel}.

Definition add_keplerian_state (period : float) (s : AstroModel) : AstroModel :=
  let name := pretty (length (m_keplerian s)) in
  {| m_t := m_t s; m_y := m_y s; m_cpsi := m_cpsi s; m_spsi := m_spsi s;
     m_cov_err := m_cov_err s; m_cov_jit_sig := m_cov_jit_sig s;
     m_lin_name := m_lin_name s; m_lin_M := m_lin_M s;
     m_lin_par := m_lin_par s;
     m_fit_param := m_fit_param s ++ kep_names name keplerian_default_param;
     m_keplerian :=
       dict_set name {| k_param := keplerian_default_param;
                        k_par := keplerian_from_period s period |}
                (m_keplerian s) |}.

(** What [fit] makes of one component. *)
Definition refit_keplerian (r : FitResult) (e : string * Keplerian)
    : string * Keplerian :=
  (e.1, {| k_param := k_param e.2; k_par := fit_kep_par r e.1 e.2 |}).

Definition refit_state (s : AstroModel) : AstroModel :=
  {| m_t := m_t s; m_y := m_y s; m_cpsi := m_cpsi s; m_spsi := m_spsi s;
     m_cov_err := m_cov_err s;
     m_cov_jit_sig := fit_jit_sig (fit_solution s);
     m_lin_name := m_lin_name s; m_lin_M := m_lin_M s;
     m_lin_par := fit_lin_par (fit_solution s);
     m_fit_param := m_fit_param s;
     m_keplerian := refit_keplerian (fit_solution s) <$> m_keplerian s |}.

(** The state after [set_keplerian_param(name, param=ps)] on a model that
    has the component [name] with state [k]. *)
Definition set_keplerian_param_state (name : string) (ps : list string)
    (k : Keplerian) (s : AstroModel) : AstroModel :=
  {| m_t := m_t s; m_y := m_y s; m_cpsi := m_cpsi s; m_spsi := m_spsi s;
     m_cov_err := m_cov_err s; m_cov_jit_sig := m_cov_jit_sig s;
     m_lin_name := m_lin_name s; m_lin_M := m_lin_M s;
     m_lin_par := m_lin_par s;
     m_fit_param :=
       filter (fun n => n ∉ kep_names name (k_param k)) (m_fit_param s)
       ++ kep_names name ps;
     m_keplerian :=
       dict_set name {| k_param := ps; k_par := convert_par k ps |}
                (m_keplerian s) |}.

End States.

(** ** The loop as a function of the state *)

Section LoopState.
Context `{Kepmodel}.

(** The state after an iteration of index [kpla] that accepts the period
    [period]: the component is added, the model refit, and the component
    named [f'{kpla}'] reparametrized. *)
Definition accept_state (kpla : nat) (period : float) (s : AstroModel) : AstroModel :=
  let s2 := refit_state (add_keplerian_state period s) in
  match dict_get (pretty kpla) (m_keplerian s2) with
  | Some k => set_keplerian_param_state (pretty kpla) param k s2
  | None => s2
  end.

(** [for kpla in kplas: ...] on the state: stop at the first iteration
    whose false-alarm probability is above the threshold. *)
Fixpoint loop_state (kplas : list nat) (s : AstroModel) : AstroModel :=
  match kplas with
  | [] => s
  | kpla :: kplas' =>
      match faplvl s, kmax s ≫= (P !!.) with
      | Some f, Some period =>
          if Py.gt f fap_threshold then s
          else loop_state kplas' (accept_state kpla period s)
      | _, _ => s
      end
  end.

End LoopState.

(** ** The cells after the loop *)

(** The exceptions these cells can raise themselves. *)
Inductive pyerr :=
| KeyErr (key : string)    (* d[key] with key missing *)
| IndexErr.                (* a[i] with i out of bounds *)

(** [d[key]] on a dict. *)
Definition getitem {V} (d : list (string * V)) (key : string) : pyerr + V :=
  match dict_get key d with
  | Some v => inr v
  | None => inl (KeyErr key)
  end.

(** [for i, key in enumerate(keys): d[key] = values[i]], with [i] the
    index of the head of [keys]. *)
Fixpoint enumerate_into (d : list (string * float)) (i : nat)
    (keys : list string) (values : list float)
    : pyerr + list (string * float) :=
  match keys with
  | [] => inr d
  | key :: keys' =>
      match values !! i with
      | Some v => enumerate_into (dict_set key v d) (S i) keys' values
      | None => inl IndexErr
      end
  end.

(** The cell that reads the fitted parameters out of [model], whose state
    is [s]: [keplerian_parameters] from [model.keplerian['0']], then
    [linear_parameters] from [model._lin_name] and [model._lin_par].  The
    result is the pair [(linear_parameters, keplerian_parameters)]. *)
Definition parameter_cell (s : AstroModel)
    : pyerr + (list (string * float) * list (string * float)) :=
  match getitem (m_keplerian s) "0" with
  | inl e => inl e
  | inr k =>
      match enumerate_into [] 0 (k_param k) (k_par k) with
      | inl e => inl e
      | inr keplerian_parameters =>
          match enumerate_into [] 0 (m_lin_name s) (m_lin_par s) with
          | inl e => inl e
          | inr linear_parameters => inr (linear_parameters, keplerian_parameters)
          end
      end
  end.

(** Values held by [attribute_dict]. *)
Inductive value :=
| VFloat (x : float)
| VInt (z : Z)
| VStr (s : string).

(** What the last cell takes from the Gaia archive and from astropy. *)
Record Catalog := {
  dr3_ra : float;            (* dr3_gaia_source.loc[0,'ra'] *)
  dr3_dec : float;           (* dr3_gaia_source.loc[0,'dec'] *)
  Tref_MJD : float;          (* reference_time.mjd *)
  m1_MS_gaia : float;        (* dr3_binary_masses m1 *)
  source_id : Z
}.

(** pystrometry's functions and constants, and numpy's [rad2deg], as the
    last cell uses them: any functions and values. *)
Class Pystrometry := {
  angular_to_linear : float -> float -> float;
  pjGet_m2 : float -> float -> float -> float;
  MS_kg : float;
  MJ_kg : float;
  np_rad2deg : float -> float
}.

Section LastCell.
Context `{Pystrometry}.

(** [x = d[key]; k x] in the cells' error type. *)
Definition get_then {V A} (d : list (string * V)) (key : string)
    (k : V -> pyerr + A) : pyerr + A :=
  match getitem d key with
  | inl e => inl e
  | inr v => k v
  end.

(** The cell that fills [attribute_dict], up to the call of the plotting
    helper.  Reads are made in the order of the source. *)
Definition attribute_cell (c : Catalog)
    (linear_parameters keplerian_parameters : list (string * float))
    : pyerr + list (string * value) :=
  get_then linear_parameters "parallax" (fun plx =>
  get_then linear_parameters "mura" (fun mura =>
  get_then linear_parameters "mudec" (fun mudec =>
  get_then linear_parameters "mura" (fun mura' =>
  get_then linear_parameters "mudec" (fun mudec' =>
  let attribute_dict : list (string * value) :=
    [("ra", VFloat (dr3_ra c)); ("dec", VFloat (dr3_dec c));
     ("absolute_plx_mas", VFloat plx);
     ("muRA_mas", VFloat mura); ("muDE_mas", VFloat mudec);
     ("muAlphaStar_masPyr", VFloat mura'); ("muDelta_masPyr", VFloat mudec');
     ("Tref_MJD", VFloat (Tref_MJD c));
     ("scan_angle_definition", VStr "gaia")]%string in
  let m1_MS := m1_MS_gaia c in
  get_then keplerian_parameters "as" (fun a_s =>
  get_then linear_parameters "parallax" (fun plx' =>
  let a_m := angular_to_linear a_s plx' in
  get_then keplerian_parameters "P" (fun period =>
  let m2_kg := pjGet_m2 (PrimFloat.mul m1_MS MS_kg) a_m period in
  let m2_MJ := PrimFloat.div m2_kg MJ_kg in
  let attribute_dict := dict_set "m2_MJ" (VFloat m2_MJ) attribute_dict in
  let attribute_dict := dict_set "m1_MS" (VFloat m1_MS) attribute_dict in
  get_then keplerian_parameters "P" (fun period' =>
  let attribute_dict := dict_set "P_day" (VFloat period') attribute_dict in
  get_then keplerian_parameters "w" (fun w =>
  let attribute_dict :=
    dict_set "p1_omega_deg" (VFloat (np_rad2deg w)) attribute_dict in
  get_then keplerian_parameters "e" (fun e =>
  let attribute_dict := dict_set "ecc" (VFloat e) attribute_dict in
  get_then keplerian_parameters "bigw" (fun bigw =>
  let attribute_dict :=
    dict_set "p1_OMEGA_deg" (VFloat (np_rad2deg bigw)) attribute_dict in
  get_then keplerian_parameters "i" (fun i =>
  let attribute_dict :=
    dict_set "p1_incl_deg" (VFloat (np_rad2deg i)) attribute_dict in
  get_then attribute_dict "Tref_MJD" (fun tref =>
  get_then keplerian_parameters "Tp" (fun tp =>
  let attribute_dict :=
    dict_set "p1_Tp_day"
             (match tref with
              | VFloat t0 => VFloat (PrimFloat.add t0 tp)
              | other => other
              end) attribute_dict in
  get_then keplerian_parameters "as" (fun a_s' =>
  let attribute_dict := dict_set "p1_a1_mas" (VFloat a_s') attribute_dict in
  get_then keplerian_parameters "e" (fun e' =>
  let attribute_dict := dict_set "p1_ecc" (VFloat e') attribute_dict in
  get_then keplerian_parameters "P" (fun period'' =>
  let attribute_dict :=
    dict_set "p1_period_day" (VFloat period'') attribute_dict in
  get_then keplerian_parameters "Tp" (fun tp' =>
  let attribute_dict := dict_set "p1_Tp_day-T0" (VFloat tp') attribute_dict in
  get_then linear_parameters "ra" (fun ra =>
  let attribute_dict :=
    dict_set "offset_alphastar_mas" (VFloat ra) attribute_dict in
  get_then linear_parameters "dec" (fun dec =>
  let attribute_dict :=
    dict_set "offset_delta_mas" (VFloat dec) attribute_dict in
  inr (dict_set "source_id" (VInt (source_id c)) attribute_dict)
  ))))))))))))))))))))).

End LastCell.

(** The keys the last cell reads. *)
Definition linear_keys : list string :=
  ["parallax"; "mura"; "mudec"; "ra"; "dec"]%string.
Definition keplerian_keys : list string :=
  ["as"; "P"; "w"; "e"; "bigw"; "i"; "Tp"]%string.

(** The keys of [attribute_dict], in order. *)
Definition attribute_keys : list string :=
  ["ra"; "dec"; "absolute_plx_mas"; "muRA_mas"; "muDE_mas";
   "muAlphaStar_masPyr"; "muDelta_masPyr"; "Tref_MJD";
   "scan_angle_definition"; "m2_MJ"; "m1_MS"; "P_day"; "p1_omega_deg";
   "ecc"; "p1_OMEGA_deg"; "p1_incl_deg"; "p1_Tp_day"; "p1_a1_mas";
   "p1_ecc"; "p1_period_day"; "p1_Tp_day-T0"; "offset_alphastar_mas";
   "offset_delta_mas"; "source_id"]%string.

(** The value under [key], for a key that is there. *)
Definition value_of (d : list (string * float)) (key : string) : float :=
  default 0%float (dict_get key d).

Section Table.
Context `{Pystrometry}.

(** The companion mass in Jupiter masses, as the last cell computes it. *)
Definition companion_mass (c : Catalog)
    (linear_parameters keplerian_parameters : list (string * float)) : float :=
  let a_m := angular_to_linear (value_of keplerian_parameters "as")
                               (value_of linear_parameters "parallax") in
  PrimFloat.div
    (pjGet_m2 (PrimFloat.mul (m1_MS_gaia c) MS_kg) a_m
              (value_of keplerian_parameters "P"))
    MJ_kg.

(** The table of attributes, entry by entry. *)
Definition attribute_table (c : Catalog)
    (linear_parameters keplerian_parameters : list (string * float))
    : list (string * value) :=
  let lin := value_of linear_parameters in
  let kep := value_of keplerian_parameters in
  [("ra", VFloat (dr3_ra c));
   ("dec", VFloat (dr3_dec c));
   ("absolute_plx_mas", VFloat (lin "parallax"));
   ("muRA_mas", VFloat (lin "mura"));
   ("muDE_mas", VFloat (lin "mudec"));
   ("muAlphaStar_masPyr", VFloat (lin "mura"));
   ("muDelta_masPyr", VFloat (lin "mudec"));
   ("Tref_MJD", VFloat (Tref_MJD c));
   ("scan_angle_definition", VStr "gaia");
   ("m2_MJ", VFloat (companion_mass c linear_parameters keplerian_parameters));
   ("m1_MS", VFloat (m1_MS_gaia c));
   ("P_day", VFloat (kep "P"));
   ("p1_omega_deg", VFloat (np_rad2deg (kep "w")));
   ("ecc", VFloat (kep "e"));
   ("p1_OMEGA_deg", VFloat (np_rad2deg (kep "bigw")));
   ("p1_incl_deg", VFloat (np_rad2deg (kep "i")));
   ("p1_Tp_day", VFloat (PrimFloat.add (Tref_MJD c) (kep "Tp")));
   ("p1_a1_mas", VFloat (kep "as"));
   ("p1_ecc", VFloat (kep "e"));
   ("p1_period_day", VFloat (kep "P"));
   ("p1_Tp_day-T0", VFloat (kep "Tp"));
   ("offset_alphastar_mas", VFloat (lin "ra"));
   ("offset_delta_mas", VFloat (lin "dec"));
   ("source_id", VInt (source_id c))]%string.

End Table.

(** ** Concrete inputs for the cells after the loop *)

Module SampleCells.

(** Stand-ins for pystrometry's functions. *)
Definition pystrometry : Pystrometry := {|
  angular_to_linear a plx := PrimFloat.div a plx;
  pjGet_m2 m1 a period := PrimFloat.mul m1 a;
  MS_kg := 2%float;
  MJ_kg := 0.5%float;
  np_rad2deg x := PrimFloat.mul x 57%float
|}.

Definition catalog : Catalog := {|
  dr3_ra := 10%float;
  dr3_dec := 20%float;
  Tref_MJD := 57388.5%float;
  m1_MS_gaia := 1%float;
  source_id := 42
|}.

Definition linear_parameters : list (string * float) :=
  [("ra", 1%float); ("dec", 2%float); ("parallax", 4%float);
   ("mura", 8%float); ("mudec", 16%float)]%string.

Definition keplerian_parameters : list (string * float) :=
  [("P", 100%float); ("Tp", 3%float); ("as", 2%float); ("e", 0.5%float);
   ("w", 1%float); ("i", 0.25%float); ("bigw", 0.125%float)]%string.

End SampleCells.
(** * Properties *)

(** ** Order of binary64 values *)

Module FloatOrder.

Ltac sf_cases :=
  repeat match goal with
    | x : spec_float |- _ => destruct x
    | b : bool |- _ => destruct b
    end;
  simpl in *; try done;
  repeat match goal with
    | |- context [Z.compare ?a ?b] => destruct (Z.compare_spec a b)
    | H : context [Z.compare ?a ?b] |- _ => destruct (Z.compare_spec a b)
    | |- context [Pos.compare_cont Eq ?a ?b] =>
        change (Pos.compare_cont Eq a b) with (Pos.compare a b);
        destruct (Pos.compare_spec a b)
    | H : context [Pos.compare_cont Eq ?a ?b] |- _ =>
        change (Pos.compare_cont Eq a b) with (Pos.compare a b) in H;
        destruct (Pos.compare_spec a b)
    end;
  simpl in *; try done; try lia.

Lemma SFleb_trans x y z :
  SFleb x y = true -> SFleb y z = true -> SFleb x z = true.
Proof. unfold SFleb, SFcompare. intros Hxy Hyz. sf_cases. Qed.

Lemma SFleb_total x y :
  SFeqb x x = true -> SFeqb y y = true -> SFleb x y = false -> SFleb y x = true.
Proof. unfold SFleb, SFeqb, SFcompare. intros Hx Hy Hxy. sf_cases. Qed.

Lemma SFleb_refl x : SFeqb x x = true -> SFleb x x = true.
Proof. unfold SFleb, SFeqb, SFcompare. intros Hx. sf_cases. Qed.

Lemma SFleb_ordered x y :
  SFleb x y = true -> SFeqb x x = true /\ SFeqb y y = true.
Proof. unfold SFleb, SFeqb, SFcompare. intros Hx. split; sf_cases. Qed.

Lemma SFleb_ltb x y : SFleb x y = true -> SFltb y x = false.
Proof. unfold SFleb, SFltb, SFcompare. intros Hx. sf_cases. Qed.

Lemma SFltb_asym x y : SFltb x y = true -> SFltb y x = false.
Proof. unfold SFltb, SFcompare. intros Hx. sf_cases. Qed.

Lemma SFltb_irrefl x : SFltb x x = false.
Proof. unfold SFltb, SFcompare. sf_cases. Qed.


Lemma is_nan_spec (x : float) :
  PrimFloat.is_nan x = negb (SFeqb (Prim2SF x) (Prim2SF x)).
Proof. unfold PrimFloat.is_nan. by rewrite FloatAxioms.eqb_spec. Qed.

Lemma leb_trans (x y z : float) :
  PrimFloat.leb x y = true -> PrimFloat.leb y z = true -> PrimFloat.leb x z = true.
Proof. rewrite !FloatAxioms.leb_spec. apply SFleb_trans. Qed.

Lemma leb_total (x y : float) :
  PrimFloat.is_nan x = false -> PrimFloat.is_nan y = false ->
  PrimFloat.leb x y = false -> PrimFloat.leb y x = true.
Proof.
  rewrite !is_nan_spec, !FloatAxioms.leb_spec, !negb_false_iff. apply SFleb_total.
Qed.

Lemma leb_refl (x : float) :
  PrimFloat.is_nan x = false -> PrimFloat.leb x x = true.
Proof. rewrite is_nan_spec, FloatAxioms.leb_spec, negb_false_iff. apply SFleb_refl. Qed.

Lemma leb_ordered (x y : float) :
  PrimFloat.leb x y = true ->
  PrimFloat.is_nan x = false /\ PrimFloat.is_nan y = false.
Proof.
  rewrite !is_nan_spec, FloatAxioms.leb_spec, !negb_false_iff. apply SFleb_ordered.
Qed.

Lemma leb_ltb (x y : float) :
  PrimFloat.leb x y = true -> PrimFloat.ltb y x = false.
Proof. rewrite FloatAxioms.leb_spec, FloatAxioms.ltb_spec. apply SFleb_ltb. Qed.

Lemma ltb_asym (x y : float) :
  PrimFloat.ltb x y = true -> PrimFloat.ltb y x = false.
Proof. rewrite !FloatAxioms.ltb_spec. apply SFltb_asym. Qed.

Lemma ltb_irrefl (x : float) : PrimFloat.ltb x x = false.
Proof. rewrite FloatAxioms.ltb_spec. apply SFltb_irrefl. Qed.


End FloatOrder.

(** ** The periodogram grid *)

Lemma arange_from_length (start : Z) (len : nat) :
  length (Py.arange_from start len) = len.
Proof. revert start. induction len as [|len IH]; intros start; simpl; auto. Qed.

Lemma arange_from_lookup (start : Z) (len k : nat) :
  (k < len)%nat ->
  Py.arange_from start len !! k = Some (Py.float_of_int (start + Z.of_nat k)).
Proof.
  revert start k. induction len as [|len IH]; intros start k Hk; [lia|].
  destruct k as [|k]; simpl.
  - by rewrite Z.add_0_r.
  - rewrite IH by lia. do 2 f_equal. lia.
Qed.

Lemma periodogram_grid_length (a d : float) (n : Z) :
  length (periodogram_grid a d n) = Z.to_nat n.
Proof.
  unfold periodogram_grid, Py.np_arange.
  by rewrite length_fmap, arange_from_length.
Qed.

Lemma periodogram_grid_lookup (a d : float) (n : Z) (k : nat) :
  (k < Z.to_nat n)%nat ->
  periodogram_grid a d n !! k
  = Some (PrimFloat.add a (PrimFloat.mul (Py.float_of_int (Z.of_nat k)) d)).
Proof.
  intros Hk. unfold periodogram_grid, Py.np_arange.
  rewrite list_lookup_fmap, arange_from_lookup by done. done.
Qed.

(** ** Rules of the calculus *)

Lemma wp_bind {A B} (m : M A) (f : A -> M B) Q E w :
  wp (mbind f m) Q E w <-> wp m (fun a w' => wp (f a) Q E w') E w.
Proof. unfold wp, mbind, M_bind, bind. by destruct (m w). Qed.

Lemma wp_bind_raw {A B} (m : M A) (f : A -> M B) Q E w :
  wp (bind m f) Q E w <-> wp m (fun a w' => wp (f a) Q E w') E w.
Proof. apply wp_bind. Qed.

Lemma wp_ret {A} (a : A) Q E w : wp (mret a) Q E w <-> Q a w.
Proof. done. Qed.

Lemma wp_ret_raw {A} (a : A) Q E w : wp (ret a) Q E w <-> Q a w.
Proof. done. Qed.

Lemma wp_raise {A} e (Q : A -> world -> Prop) E w : wp (raise e) Q E w <-> E w.
Proof. done. Qed.

Lemma wp_of_option {A} e (x : option A) Q E w :
  wp (of_option e x) Q E w <-> match x with Some a => Q a w | None => E w end.
Proof. by destruct x. Qed.

Lemma wp_emit c Q E w : wp (emit c) Q E w <-> Q tt (log c w).
Proof. done. Qed.

Lemma wp_alloc c Q E w :
  wp (alloc c) Q E w
  <-> Q (fresh (dom (heap w))) (put (fresh (dom (heap w))) c w).
Proof. done. Qed.

Lemma wp_load l Q E w :
  wp (load l) Q E w <-> match heap w !! l with Some c => Q c w | None => E w end.
Proof. unfold wp, load. by destruct (heap w !! l). Qed.

Lemma wp_store l c Q E w :
  wp (store l c) Q E w
  <-> match heap w !! l with Some _ => Q tt (put l c w) | None => E w end.
Proof. unfold wp, store. by destruct (heap w !! l). Qed.

Lemma wp_mono {A} (m : M A) (Q Q' : A -> world -> Prop) (E E' : world -> Prop) w :
  (forall a w', Q a w' -> Q' a w') -> (forall w', E w' -> E' w') ->
  wp m Q E w -> wp m Q' E' w.
Proof. unfold wp. destruct (m w); auto. Qed.

Lemma wp_load_cov l Q E w :
  wp (load_cov l) Q E w
  <-> match heap w !! l with Some (CCov e j) => Q (e, j) w | _ => E w end.
Proof. unfold load_cov. rewrite wp_bind, wp_load. by repeat case_match. Qed.

Lemma wp_load_names l Q E w :
  wp (load_names l) Q E w
  <-> match heap w !! l with Some (CNames x) => Q x w | _ => E w end.
Proof. unfold load_names. rewrite wp_bind, wp_load. by repeat case_match. Qed.

Lemma wp_load_matrix l Q E w :
  wp (load_matrix l) Q E w
  <-> match heap w !! l with Some (CMatrix x) => Q x w | _ => E w end.
Proof. unfold load_matrix. rewrite wp_bind, wp_load. by repeat case_match. Qed.

Lemma wp_load_array l Q E w :
  wp (load_array l) Q E w
  <-> match heap w !! l with Some (CArray x) => Q x w | _ => E w end.
Proof. unfold load_array. rewrite wp_bind, wp_load. by repeat case_match. Qed.

Lemma wp_load_keplerian l Q E w :
  wp (load_keplerian l) Q E w
  <-> match heap w !! l with Some (CKeplerian x) => Q x w | _ => E w end.
Proof. unfold load_keplerian. rewrite wp_bind, wp_load. by repeat case_match. Qed.

Lemma wp_load_dict l Q E w :
  wp (load_dict l) Q E w
  <-> match heap w !! l with Some (CDict x) => Q x w | _ => E w end.
Proof. unfold load_dict. rewrite wp_bind, wp_load. by repeat case_match. Qed.

Lemma wp_load_model l Q E w :
  wp (load_model l) Q E w
  <-> match heap w !! l with Some (CModel o) => Q o w | _ => E w end.
Proof. unfold load_model. rewrite wp_bind, wp_load. by repeat case_match. Qed.

(** ** Dictionaries *)

Lemma dict_set_values {V} (Pv : V -> Prop) key (v : V) d :
  Pv v -> Forall Pv d.*2 -> Forall Pv (dict_set key v d).*2.
Proof.
  intros Hv. induction d as [|[k x] d IH]; simpl; intros Hd.
  - by repeat constructor.
  - apply Forall_cons in Hd as [Hx Hd]. case_decide; simpl; constructor; auto.
Qed.

Lemma dict_get_values {V} key (v : V) d : dict_get key d = Some v -> v ∈ d.*2.
Proof.
  induction d as [|[k x] d IH]; simpl; [done|].
  case_decide; intros Hg; simplify_eq; [by left | right; auto].
Qed.

Lemma dict_set_length {V} key (v : V) d :
  (length (dict_set key v d) <= S (length d))%nat.
Proof.
  induction d as [|[k x] d IH]; simpl; [lia|]. case_decide; simpl; lia.
Qed.

(** ** Keeping the heap apart from an earlier one *)

Section Keeps.
Context (h0 : gmap loc cell).
Implicit Types (l : loc) (c : cell).

Lemma apart_refl : apart h0 h0.
Proof. split; [done | intros l c Hl Hn; congruence]. Qed.

Lemma apart_insert h l c :
  apart h0 h -> h0 !! l = None ->
  Forall (fun r => h0 !! r = None) (refs c) ->
  apart h0 (<[l := c]> h).
Proof.
  intros [Hsub Hcl] Hl Hc. split.
  - apply map_subseteq_spec. intros i x Hi.
    rewrite lookup_insert_ne by congruence.
    by apply (proj1 (map_subseteq_spec h0 h) Hsub).
  - intros i x. destruct (decide (l = i)) as [->|Hne].
    + rewrite lookup_insert_eq. intros [= <-] _. done.
    + rewrite lookup_insert_ne by done. apply Hcl.
Qed.

Lemma apart_fresh h : apart h0 h -> h0 !! fresh (dom h) = None.
Proof.
  intros [Hsub _]. destruct (h0 !! fresh (dom h)) eqn:Hf; [|done].
  exfalso. apply (is_fresh (dom h)). apply elem_of_dom.
  exists c. by apply (proj1 (map_subseteq_spec h0 h) Hsub).
Qed.

Lemma keeps_bind {A B} (m : M A) (f : A -> M B) (R : A -> Prop) (R' : B -> Prop) :
  keeps h0 m R -> (forall a, R a -> keeps h0 (f a) R') ->
  keeps h0 (mbind f m) R'.
Proof.
  intros Hm Hf w Hw. apply wp_bind. eapply wp_mono; [| |apply Hm, Hw]; simpl.
  - intros a w' [Hw' Ha]. by apply Hf.
  - done.
Qed.

Lemma keeps_weaken {A} (m : M A) (R R' : A -> Prop) :
  (forall a, R a -> R' a) -> keeps h0 m R -> keeps h0 m R'.
Proof.
  intros HR Hm w Hw. eapply wp_mono; [| |apply Hm, Hw]; simpl; [|done].
  intros a w' [? ?]; auto.
Qed.

Lemma keeps_ret {A} (a : A) (R : A -> Prop) : R a -> keeps h0 (mret a) R.
Proof. intros Ha w Hw. by apply wp_ret. Qed.

Lemma keeps_raise {A} e (R : A -> Prop) : keeps h0 (raise e) R.
Proof. intros w Hw. by apply wp_raise. Qed.

Lemma keeps_of_option {A} e (x : option A) :
  keeps h0 (of_option e x) (fun a => x = Some a).
Proof. intros w Hw. apply wp_of_option. destruct x; auto. Qed.

Lemma keeps_emit (ev : call) : keeps h0 (emit ev) (fun _ => True).
Proof. intros w Hw. by apply wp_emit. Qed.

Lemma keeps_alloc c :
  Forall (fun r => h0 !! r = None) (refs c) ->
  keeps h0 (alloc c) (fun l => h0 !! l = None).
Proof.
  intros Hc w Hw. apply wp_alloc. simpl. split.
  - apply apart_insert; auto using apart_fresh.
  - by apply apart_fresh.
Qed.

Lemma keeps_store l c :
  h0 !! l = None -> Forall (fun r => h0 !! r = None) (refs c) ->
  keeps h0 (store l c) (fun _ => True).
Proof.
  intros Hl Hc w Hw. apply wp_store. destruct (heap w !! l); [|done].
  simpl. split; [|done]. by apply apart_insert.
Qed.

Lemma keeps_load l :
  keeps h0 (load l)
        (fun c => h0 !! l = None -> Forall (fun r => h0 !! r = None) (refs c)).
Proof.
  intros w Hw. apply wp_load. destruct (heap w !! l) eqn:Hl; [|done].
  split; [done|]. intros Hn. destruct Hw as [_ Hcl]. by eapply Hcl.
Qed.

Lemma keeps_load_cov l : keeps h0 (load_cov l) (fun _ => True).
Proof.
  eapply keeps_bind; [apply keeps_load|]. intros c _.
  destruct c; by (apply keeps_ret || apply keeps_raise).
Qed.

Lemma keeps_load_names l : keeps h0 (load_names l) (fun _ => True).
Proof.
  eapply keeps_bind; [apply keeps_load|]. intros c _.
  destruct c; by (apply keeps_ret || apply keeps_raise).
Qed.

Lemma keeps_load_matrix l : keeps h0 (load_matrix l) (fun _ => True).
Proof.
  eapply keeps_bind; [apply keeps_load|]. intros c _.
  destruct c; by (apply keeps_ret || apply keeps_raise).
Qed.

Lemma keeps_load_array l : keeps h0 (load_array l) (fun _ => True).
Proof.
  eapply keeps_bind; [apply keeps_load|]. intros c _.
  destruct c; by (apply keeps_ret || apply keeps_raise).
Qed.

Lemma keeps_load_keplerian l : keeps h0 (load_keplerian l) (fun _ => True).
Proof.
  eapply keeps_bind; [apply keeps_load|]. intros c _.
  destruct c; by (apply keeps_ret || apply keeps_raise).
Qed.

Lemma keeps_load_dict l :
  keeps h0 (load_dict l)
        (fun d => h0 !! l = None -> Forall (fun r => h0 !! r = None) d.*2).
Proof.
  eapply keeps_bind; [apply keeps_load|]. intros c Hc.
  destruct c; by (apply keeps_ret || apply keeps_raise).
Qed.

Lemma keeps_load_model l :
  keeps h0 (load_model l)
        (fun o => h0 !! l = None ->
                  Forall (fun r => h0 !! r = None) (refs (CModel o))).
Proof.
  eapply keeps_bind; [apply keeps_load|]. intros c Hc.
  destruct c; by (apply keeps_ret || apply keeps_raise).
Qed.

Lemma keeps_for_each {A} (xs : list A) (body : A -> M unit) :
  (forall x, x ∈ xs -> keeps h0 (body x) (fun _ => True)) ->
  keeps h0 (for_each xs body) (fun _ => True).
Proof.
  induction xs as [|x xs IH]; intros Hb; simpl.
  - by apply keeps_ret.
  - apply (keeps_bind (body x) _ (fun _ => True)).
    + apply Hb. by left.
    + intros _ _. apply IH. intros y Hy. apply Hb. by right.
Qed.

Lemma keeps_collect {A B} (f : A -> M B) (xs : list A) (R : B -> Prop) :
  (forall x, x ∈ xs -> keeps h0 (f x) R) ->
  keeps h0 (collect f xs) (Forall R).
Proof.
  induction xs as [|x xs IH]; intros Hf; simpl.
  - by apply keeps_ret.
  - apply (keeps_bind (f x) _ R).
    + apply Hf. by left.
    + intros y Hy. apply (keeps_bind (collect f xs) _ (Forall R)).
      * apply IH. intros z Hz. apply Hf. by right.
      * intros ys Hys. apply keeps_ret. by constructor.
Qed.

Lemma keeps_for_range (ks : list nat) (body : nat -> M flow) :
  (forall k, keeps h0 (body k) (fun _ => True)) ->
  keeps h0 (for_range ks body) (fun _ => True).
Proof.
  intros Hb. induction ks as [|k ks IH]; simpl.
  - by apply keeps_ret.
  - apply (keeps_bind (body k) _ (fun _ => True)); [apply Hb|].
    intros [] _; [apply IH | by apply keeps_ret].
Qed.

End Keeps.

Ltac use_refs :=
  repeat match goal with
    | H : ?P -> Forall _ _, H' : ?P |- _ => specialize (H H')
    | H : Forall _ (refs _) |- _ => simpl in H
    | H : Forall _ (_ :: _) |- _ => apply Forall_cons in H; destruct H
    end.

Ltac keeps_prim0 :=
  first
    [ apply keeps_emit | apply keeps_load_cov | apply keeps_load_names
    | apply keeps_load_matrix | apply keeps_load_array
    | apply keeps_load_keplerian | apply keeps_load_dict
    | apply keeps_load_model
    | apply keeps_alloc; solve [use_refs; simpl; auto]
    | apply keeps_store; solve [use_refs; simpl; auto]
    | apply keeps_raise
    | apply keeps_of_option ].

Ltac keeps_go0 :=
  repeat match goal with
    | |- keeps _ (mbind _ _) _ => eapply keeps_bind; [ keeps_prim0 | intros ? ?; cbv beta in * ]
    | |- keeps _ (mret _) _ => apply keeps_ret
    | |- keeps _ (raise _) _ => apply keeps_raise
    | |- keeps _ (if ?b then _ else _) _ => destruct b
    | |- keeps _ (let '(_, _) := ?x in _) _ => destruct x
    | |- keeps _ (let _ := _ in _) _ => simpl
    end.

Section KeepsSnapshot.
Context (h0 : gmap loc cell).

Lemma keeps_snapshot self : keeps h0 (snapshot self) (fun _ => True).
Proof.
  unfold snapshot. keeps_go0.
  eapply keeps_bind.
  - apply (keeps_collect h0 _ _ (fun _ => True)). intros [label kl] _.
    keeps_go0. done.
  - intros ks _. by apply keeps_ret.
Qed.

End KeepsSnapshot.

Ltac keeps_prim := first [ apply keeps_snapshot | keeps_prim0 ].

Ltac keeps_go :=
  repeat match goal with
    | |- keeps _ (mbind _ _) _ => eapply keeps_bind; [ keeps_prim | intros ? ?; cbv beta in * ]
    | |- keeps _ (mret _) _ => apply keeps_ret
    | |- keeps _ (raise _) _ => apply keeps_raise
    | |- keeps _ (if ?b then _ else _) _ => destruct b
    | |- keeps _ (let '(_, _) := ?x in _) _ => destruct x
    | |- keeps _ (let _ := _ in _) _ => simpl
    end.

Section KeepsMethods.
Context `{Kepmodel} (h0 : gmap loc cell).
Implicit Types (self model : loc).

Lemma keeps_add_lin self derivative name :
  h0 !! self = None -> keeps h0 (add_lin self derivative name) (fun _ => True).
Proof.
  intros Hself. unfold add_lin. keeps_go.
  - eapply keeps_weaken; [|keeps_prim]. done.
Qed.

Lemma keeps_fit_param_iadd self names :
  h0 !! self = None -> keeps h0 (fit_param_iadd self names) (fun _ => True).
Proof.
  intros Hself. unfold fit_param_iadd. keeps_go.
  eapply keeps_weaken; [|keeps_prim]. done.
Qed.

Lemma keeps_fit self :
  h0 !! self = None -> keeps h0 (fit self) (fun _ => True).
Proof.
  intros Hself. unfold fit. keeps_go.
  apply keeps_for_each. intros [label kl] Hin.
  assert (h0 !! kl = None) as Hkl.
  { use_refs. match goal with Hd : Forall _ _.*2 |- _ =>
      apply (proj1 (Forall_forall _ _) Hd) end.
    apply list_elem_of_fmap. by exists (label, kl). }
  keeps_go. eapply keeps_weaken; [|keeps_prim]. done.
Qed.

Lemma keeps_residuals self : keeps h0 (residuals self) (fun _ => True).
Proof. unfold residuals. keeps_go. done. Qed.

Lemma keeps_periodogram self a d n :
  keeps h0 (periodogram self a d n) (fun _ => True).
Proof. unfold periodogram. keeps_go. done. Qed.

Lemma keeps_fap self peak numax : keeps h0 (fap self peak numax) (fun _ => True).
Proof. unfold fap. keeps_go. done. Qed.

Lemma keeps_add_keplerian_from_period self p :
  h0 !! self = None ->
  keeps h0 (add_keplerian_from_period self p) (fun _ => True).
Proof.
  intros Hself. unfold add_keplerian_from_period. keeps_go.
  eapply keeps_bind.
  - apply keeps_store; use_refs; [done|]. simpl. by apply dict_set_values.
  - intros _ _. keeps_go. eapply keeps_weaken; [|keeps_prim]. done.
Qed.

Lemma keeps_set_keplerian_param self name ps :
  h0 !! self = None ->
  keeps h0 (set_keplerian_param self name ps) (fun _ => True).
Proof.
  intros Hself. unfold set_keplerian_param. keeps_go.
  match goal with Hg : dict_get _ _ = Some ?kl |- _ =>
    assert (h0 !! kl = None) as Hkl end.
  { use_refs. match goal with Hd : Forall _ _.*2 |- _ =>
      apply (proj1 (Forall_forall _ _) Hd) end.
    by eapply dict_get_values. }
  keeps_go. eapply keeps_weaken; [|keeps_prim]. done.
Qed.

Lemma keeps_deepcopy self : keeps h0 (deepcopy self) (fun l => h0 !! l = None).
Proof.
  unfold deepcopy. keeps_go.
  eapply keeps_bind.
  - apply (keeps_collect h0 _ _ (fun e => h0 !! e.2 = None)).
    intros [label kl] _. keeps_go. done.
  - intros d' Hd'. eapply keeps_bind.
    + apply keeps_alloc. simpl. by apply Forall_fmap.
    + intros kd Hkd. cbv beta in *. apply keeps_alloc. simpl.
      repeat constructor; done.
Qed.

Lemma keeps_detection_iteration model kpla :
  h0 !! model = None ->
  keeps h0 (detection_iteration model kpla) (fun _ => True).
Proof.
  intros Hm. unfold detection_iteration.
  eapply keeps_bind; [apply keeps_residuals|]. intros res _.
  eapply keeps_bind; [apply keeps_periodogram|]. intros [nu' power'] _.
  keeps_go.
  eapply keeps_bind; [apply keeps_fap|]. intros f _.
  keeps_go; [done|].
  eapply keeps_bind; [by apply keeps_add_keplerian_from_period|]. intros _ _.
  eapply keeps_bind; [by apply keeps_fit|]. intros _ _.
  eapply keeps_bind; [by apply keeps_set_keplerian_param|]. intros _ _.
  by apply keeps_ret.
Qed.

Lemma keeps_detection_loop model n :
  h0 !! model = None -> keeps h0 (detection_loop model n) (fun _ => True).
Proof.
  intros Hm. apply keeps_for_range. intros k.
  by apply keeps_detection_iteration.
Qed.

Lemma keeps_keplerian_cell single :
  keeps h0 (keplerian_cell single) (fun l => h0 !! l = None).
Proof.
  unfold keplerian_cell.
  eapply keeps_bind; [apply keeps_deepcopy|]. intros model Hm.
  eapply keeps_bind; [by apply keeps_detection_loop|]. intros _ _.
  by apply keeps_ret.
Qed.

End KeepsMethods.

(** ** Reading a model's state *)

Ltac wp_rules :=
  first
    [ rewrite wp_bind | rewrite wp_bind_raw | rewrite wp_ret
    | rewrite wp_ret_raw | rewrite wp_raise | rewrite wp_emit
    | rewrite wp_alloc | rewrite wp_of_option | rewrite wp_store
    | rewrite wp_load_model | rewrite wp_load_cov | rewrite wp_load_names
    | rewrite wp_load_matrix | rewrite wp_load_array
    | rewrite wp_load_keplerian | rewrite wp_load_dict | rewrite wp_load ].

Ltac wp_known :=
  match goal with
  | Hl : ?h !! ?l = _ |- context [?h !! ?l] => rewrite Hl
  end.

Ltac wp_case :=
  match goal with
  | |- context [match heap ?w !! ?l with _ => _ end] =>
      let c := fresh "c" in let Hl := fresh "Hl" in
      destruct (heap w !! l) as [c|] eqn:Hl; [destruct c|]
  end.

Ltac wp_go := repeat first [ wp_rules | wp_known | progress simpl | wp_case ].

Lemma collect_keplerians_spec (d : list (string * loc)) Q E w :
  match mapM (fun e : string * loc =>
                match heap w !! e.2 with
                | Some (CKeplerian k) => Some (e.1, k)
                | _ => None
                end) d with
  | Some ks => Q ks w
  | None => E w
  end ->
  wp (collect (fun '(label, l) => k ← load_keplerian l; mret (label, k)) d) Q E w.
Proof.
  revert Q. induction d as [|[label l] d IH]; intros Q; simpl.
  - by rewrite wp_ret.
  - rewrite wp_bind_raw, wp_bind, wp_load_keplerian.
    destruct (heap w !! l) as [[]|]; simpl; try done.
    intros HQ. rewrite wp_ret, wp_bind_raw. apply IH.
    destruct (mapM _ d); simpl in *; [|done].
    by rewrite wp_ret_raw.
Qed.

Lemma wp_exact {A} (m : M A) (a0 : A) (w0 w : world) :
  wp m (fun a w' => a = a0 /\ w' = w0) (fun _ => False) w <-> m w = Ok a0 w0.
Proof.
  unfold wp. destruct (m w) as [a w'|e w']; split; intros Hx.
  - by destruct Hx as [-> ->].
  - by simplify_eq.
  - done.
  - done.
Qed.

Lemma snapshot_spec self w :
  wp (snapshot self)
     (fun s w' => w' = w /\ exists o d, owns (heap w) self o d s)
     (fun w' => w' = w) w.
Proof.
  unfold snapshot. wp_go; try done.
  apply collect_keplerians_spec.
  destruct (mapM _ d) as [ks|] eqn:Hks; [|done].
  rewrite wp_ret. split; [done|]. exists o, d.
  unfold owns; simpl. split_and!; try done.
  apply mapM_Some in Hks. eapply Forall2_impl; [apply Hks|].
  intros [lab kl] [lab' kp]; simpl. intros Hk.
  destruct (heap w !! kl) as [[]|]; by simplify_eq.
Qed.

Lemma snapshot_owns self o d s w :
  owns (heap w) self o d s -> snapshot self w = Ok s w.
Proof.
  intros (Hself & Hcov & Hln & HlM & Hlp & Hfp & Hd & Hks & Ht & Hy & Hc & Hs).
  apply wp_exact. unfold snapshot. wp_go.
  apply collect_keplerians_spec.
  assert (mapM (fun e : string * loc =>
                  match heap w !! e.2 with
                  | Some (CKeplerian k) => Some (e.1, k)
                  | _ => None
                  end) d = Some (m_keplerian s)) as ->.
  { apply mapM_Some. eapply Forall2_impl; [apply Hks|].
    intros [lab kl] [lab' kp]; simpl. intros [-> ->]. done. }
  rewrite wp_ret. split; [|done]. destruct s; simpl in *. by subst.
Qed.

Lemma snapshot_world self w : world_of (snapshot self w) = w.
Proof.
  pose proof (snapshot_spec self w) as Hs. unfold wp in Hs.
  destruct (snapshot self w); simpl; [by destruct Hs | done].
Qed.

Lemma snapshot_inv self s w w' :
  snapshot self w = Ok s w' -> w' = w /\ exists o d, owns (heap w) self o d s.
Proof.
  intros Hs. pose proof (snapshot_spec self w) as Hw. unfold wp in Hw.
  by rewrite Hs in Hw.
Qed.

Lemma owns_mono h h' self o d s :
  h ⊆ h' -> owns h self o d s -> owns h' self o d s.
Proof.
  intros Hsub (Hself & Hcov & Hln & HlM & Hlp & Hfp & Hd & Hks & ? & ? & ? & ?).
  pose proof (proj1 (map_subseteq_spec h h') Hsub) as Hin.
  unfold owns. split_and!; auto.
  eapply Forall2_impl; [apply Hks|]. intros e ek [? ?]; auto.
Qed.

Lemma state_of_owns h self s :
  state_of self h = Some s <-> exists o d, owns h self o d s.
Proof.
  unfold state_of. split.
  - destruct (snapshot _ _) eqn:Hs; [|done]. intros [= ->].
    by apply snapshot_inv in Hs as [_ Ho].
  - intros (o & d & Ho).
    by rewrite (snapshot_owns self o d s {| heap := h; trace := [] |}).
Qed.

Lemma state_of_mono h h' self s :
  h ⊆ h' -> state_of self h = Some s -> state_of self h' = Some s.
Proof.
  rewrite !state_of_owns. intros Hsub (o & d & Ho).
  exists o, d. by eapply owns_mono.
Qed.

Lemma snapshot_state_of self w s :
  state_of self (heap w) = Some s -> snapshot self w = Ok s w.
Proof.
  rewrite state_of_owns. intros (o & d & Ho). by eapply snapshot_owns.
Qed.

(** ** The deep copy *)

(** C9.  Running the cell [model = copy.deepcopy(single_star_model)]
    followed by the detection loop leaves every object that existed before
    as it was; so the state read from [single_star_model] (linear
    coefficients, jitter, free-parameter list, Keplerian components) is the
    one it had.  The copy is a new object, and every new object refers to
    new objects only: nothing is shared with the original.  This holds
    whether the cell returns or raises. *)
Theorem C9_deepcopy_frame `{Kepmodel} (single_star_model : loc) (w : world) :
  let r := keplerian_cell single_star_model w in
  heap w ⊆ heap (world_of r)
  /\ (forall s, state_of single_star_model (heap w) = Some s ->
                state_of single_star_model (heap (world_of r)) = Some s)
  /\ (forall model w', r = Ok model w' -> heap w !! model = None)
  /\ (forall l c, heap (world_of r) !! l = Some c -> heap w !! l = None ->
                  Forall (fun l' => heap w !! l' = None) (refs c)).
Proof.
  intros r.
  pose proof (keeps_keplerian_cell (heap w) single_star_model w
                (apart_refl (heap w))) as Hk.
  unfold wp in Hk. fold r in Hk.
  assert (apart (heap w) (heap (world_of r))) as [Hsub Hcl].
  { destruct r; simpl; [by destruct Hk | done]. }
  split_and!.
  - done.
  - intros s. by apply state_of_mono.
  - intros model w' Hr. rewrite Hr in Hk. by destruct Hk.
  - done.
Qed.

(** ** Measures that a computation raises by a bounded amount *)

Section Rises.
Context `{Kepmodel} (mu : world -> nat) (p : call -> bool) (ok : cell -> Prop).
Hypothesis mu_log : forall c w, (mu (log c w) <= mu w + weight p c)%nat.
Hypothesis mu_put : forall l c w, ok c -> (mu (put l c w) <= mu w)%nat.
Hypothesis ok_leaf : forall c, leaf c -> ok c.

Lemma rises_bind {A B} k1 k2 (m : M A) (f : A -> M B) :
  rises mu k1 m -> (forall a, rises mu k2 (f a)) ->
  rises mu (k1 + k2) (mbind f m).
Proof.
  intros Hm Hf w. unfold mbind, M_bind, bind. specialize (Hm w).
  destruct (m w) as [a w'|e w']; simpl in *; [|lia].
  specialize (Hf a w'). lia.
Qed.

Lemma rises_le {A} k k' (m : M A) : (k <= k')%nat -> rises mu k m -> rises mu k' m.
Proof. intros Hk Hm w. specialize (Hm w). lia. Qed.

Lemma rises_reads {A} (m : M A) : (forall w, world_of (m w) = w) -> rises mu 0 m.
Proof. intros Hm w. rewrite Hm. lia. Qed.

Lemma rises_ret {A} (a : A) : rises mu 0 (mret a).
Proof. by apply rises_reads. Qed.

Lemma rises_raise {A} e : rises mu 0 (raise (A := A) e).
Proof. by apply rises_reads. Qed.

Lemma rises_of_option {A} e (x : option A) : rises mu 0 (of_option e x).
Proof. apply rises_reads. by destruct x. Qed.

Lemma rises_emit c : rises mu (weight p c) (emit c).
Proof. intros w. simpl. apply (mu_log c w). Qed.

Lemma rises_alloc c : ok c -> rises mu 0 (alloc c).
Proof.
  intros Hc w. simpl.
  pose proof (mu_put (fresh (dom (heap w))) c w Hc). unfold put in *. lia.
Qed.

Lemma rises_store l c : ok c -> rises mu 0 (store l c).
Proof.
  intros Hc w. unfold store. destruct (heap w !! l); simpl; [|lia].
  pose proof (mu_put l c w Hc). unfold put in *. lia.
Qed.

Lemma rises_load l : rises mu 0 (load l).
Proof. apply rises_reads. intros w. unfold load. by destruct (heap w !! l). Qed.

Lemma rises_snapshot self : rises mu 0 (snapshot self).
Proof. apply rises_reads, snapshot_world. Qed.

Lemma rises_for_each {A} (xs : list A) (body : A -> M unit) :
  (forall x, rises mu 0 (body x)) -> rises mu 0 (for_each xs body).
Proof.
  intros Hb. induction xs as [|x xs IH]; simpl; [apply rises_ret|].
  apply (rises_bind 0 0); auto.
Qed.

Ltac reads_load :=
  apply rises_reads; intros w;
  unfold load_cov, load_names, load_matrix, load_array, load_keplerian,
         load_dict, load_model, mbind, M_bind, bind, load;
  destruct (heap w !! _) as [[]|]; done.

Lemma rises_load_cov l : rises mu 0 (load_cov l).
Proof. reads_load. Qed.
Lemma rises_load_names l : rises mu 0 (load_names l).
Proof. reads_load. Qed.
Lemma rises_load_matrix l : rises mu 0 (load_matrix l).
Proof. reads_load. Qed.
Lemma rises_load_array l : rises mu 0 (load_array l).
Proof. reads_load. Qed.
Lemma rises_load_keplerian l : rises mu 0 (load_keplerian l).
Proof. reads_load. Qed.
Lemma rises_load_dict l : rises mu 0 (load_dict l).
Proof. reads_load. Qed.
Lemma rises_load_model l : rises mu 0 (load_model l).
Proof. reads_load. Qed.

Ltac rises_prim :=
  first
    [ apply rises_snapshot | apply rises_load_cov | apply rises_load_names
    | apply rises_load_matrix | apply rises_load_array
    | apply rises_load_keplerian | apply rises_load_dict
    | apply rises_load_model | apply rises_of_option
    | apply rises_alloc; apply ok_leaf; exact I
    | apply rises_store; apply ok_leaf; exact I
    | apply rises_ret | apply rises_raise ].

Ltac rises_zero :=
  repeat match goal with
    | |- rises _ 0 (mbind _ _) => apply (rises_bind 0 0); [ rises_prim | intros ? ]
    | |- rises _ 0 (if ?b then _ else _) => destruct b
    | |- rises _ 0 (let '(_, _) := ?x in _) => destruct x
    | |- rises _ 0 (let _ := _ in _) => simpl
    | |- rises _ 0 _ => rises_prim
    end.

(** A method that logs its call and then works on the heap. *)
Ltac rises_method :=
  apply (rises_bind _ 0); [ apply rises_emit | intros _; rises_zero ].

Lemma rises_add_lin self derivative name :
  rises mu (weight p (CallAddLin self name)) (add_lin self derivative name).
Proof. rewrite <- (Nat.add_0_r (weight _ _)). unfold add_lin. rises_method. Qed.

Lemma rises_fit_param_iadd self names : rises mu 0 (fit_param_iadd self names).
Proof. unfold fit_param_iadd. rises_zero. Qed.

Lemma rises_fit self : rises mu (weight p (CallFit self)) (fit self).
Proof.
  rewrite <- (Nat.add_0_r (weight _ _)). unfold fit. rises_method.
  apply rises_for_each. intros [label kl]. rises_zero.
Qed.

Lemma rises_residuals self :
  rises mu (weight p (CallResiduals self)) (residuals self).
Proof. rewrite <- (Nat.add_0_r (weight _ _)). unfold residuals. rises_method. Qed.

Lemma rises_periodogram self a d n :
  rises mu (weight p (CallPeriodogram self a d n)) (periodogram self a d n).
Proof. rewrite <- (Nat.add_0_r (weight _ _)). unfold periodogram. rises_method. Qed.

Lemma rises_fap self peak numax :
  rises mu (weight p (CallFap self peak numax)) (fap self peak numax).
Proof. rewrite <- (Nat.add_0_r (weight _ _)). unfold fap. rises_method. Qed.

Lemma rises_set_keplerian_param self name ps :
  rises mu (weight p (CallSetKeplerianParam self name ps))
        (set_keplerian_param self name ps).
Proof.
  rewrite <- (Nat.add_0_r (weight _ _)). unfold set_keplerian_param. rises_method.
Qed.

Lemma rises_add_keplerian_from_period self period :
  (forall d, ok (CDict d)) ->
  rises mu (weight p (CallAddKeplerianFromPeriod self period))
        (add_keplerian_from_period self period).
Proof.
  intros Hd. rewrite <- (Nat.add_0_r (weight _ _)).
  unfold add_keplerian_from_period. rises_method.
  apply (rises_bind 0 0); [by apply rises_store|]. intros _. rises_zero.
Qed.

Lemma rises_detection_iteration model kpla ka k :
  (forall period, rises mu ka (add_keplerian_from_period model period)) ->
  (forall a b,
     weight p (CallResiduals model)
     + weight p (CallPeriodogram model nu0 dnu nfreq)
     + weight p (CallFap model a b) + ka + weight p (CallFit model)
     + weight p (CallSetKeplerianParam model (pretty kpla) param) <= k)%nat ->
  rises mu k (detection_iteration model kpla).
Proof.
  intros Hadd Hk. unfold detection_iteration.
  set (kr := weight p (CallResiduals model)) in *.
  set (kp := weight p (CallPeriodogram model nu0 dnu nfreq)) in *.
  set (kf := weight p (CallFit model)) in *.
  set (ks := weight p (CallSetKeplerianParam model (pretty kpla) param)) in *.
  apply (rises_le (kr + (k - kr))); [specialize (Hk 0%float 0%float); lia|].
  apply rises_bind; [apply rises_residuals|]. intros res.
  apply (rises_le (kp + (k - kr - kp))); [specialize (Hk 0%float 0%float); lia|].
  apply rises_bind; [apply rises_periodogram|]. intros [nu' power'].
  apply (rises_le (0 + (k - kr - kp))); [lia|].
  apply rises_bind; [apply rises_of_option|]. intros kmax'.
  apply (rises_le (0 + (k - kr - kp))); [lia|].
  apply rises_bind; [apply rises_of_option|]. intros peak.
  apply (rises_le (0 + (k - kr - kp))); [lia|].
  apply rises_bind; [apply rises_of_option|]. intros numax.
  set (kq := weight p (CallFap model peak numax)).
  apply (rises_le (kq + (k - kr - kp - kq))); [specialize (Hk peak numax); lia|].
  apply rises_bind; [apply rises_fap|]. intros f.
  apply (rises_le (0 + (k - kr - kp - kq))); [lia|].
  apply rises_bind; [apply rises_of_option|]. intros Pk.
  destruct (Py.gt f fap_threshold).
  { eapply rises_le; [|apply rises_ret]. lia. }
  apply (rises_le (ka + (kf + (ks + 0)))); [specialize (Hk peak numax); lia|].
  apply rises_bind; [apply Hadd|]. intros _.
  apply rises_bind; [apply rises_fit|]. intros _.
  apply rises_bind; [apply rises_set_keplerian_param|]. intros _.
  apply rises_ret.
Qed.

Lemma rises_for_range (ks : list nat) (body : nat -> M flow) k :
  (forall i, rises mu k (body i)) ->
  rises mu (length ks * k) (for_range ks body).
Proof.
  intros Hb. induction ks as [|i ks IH]; simpl.
  - apply rises_ret.
  - apply rises_bind; [apply Hb|]. intros [].
    + apply IH.
    + eapply rises_le; [|apply rises_ret]. lia.
Qed.

End Rises.

(** ** The number of calls and of components *)

Lemma count_app (p : call -> bool) tr1 tr2 :
  count p (tr1 ++ tr2) = (count p tr1 + count p tr2)%nat.
Proof. unfold count. by rewrite filter_app, length_app. Qed.

Lemma count_cons (p : call -> bool) c tr :
  count p (c :: tr) = (weight p c + count p tr)%nat.
Proof.
  unfold count, weight. rewrite filter_cons.
  case_decide as Hp; [by rewrite Hp|]. by destruct (p c).
Qed.

Lemma count_log (p : call -> bool) c w :
  (count p (trace (log c w)) <= count p (trace w) + weight p c)%nat.
Proof.
  simpl. rewrite count_app. unfold count, weight. simpl.
  rewrite filter_cons, filter_nil. case_decide as Hp; rewrite Hp || (destruct (p c); [done|]); simpl; lia.
Qed.

Lemma nkep_put_leaf self l c h :
  leaf c -> (nkep self (<[l := c]> h) <= nkep self h)%nat.
Proof.
  intros Hc. unfold nkep.
  destruct (decide (l = self)) as [->|Hne].
  { rewrite lookup_insert_eq. destruct c; simpl in *; (done || lia). }
  rewrite lookup_insert_ne by done.
  destruct (h !! self) as [[]|]; try lia.
  destruct (decide (l = o_keplerian o)) as [->|Hne'].
  { rewrite lookup_insert_eq. destruct c; simpl in *; (done || lia). }
  by rewrite lookup_insert_ne.
Qed.

Lemma nkep_put_dict self l d h :
  (nkep self (<[l := CDict d]> h) <= nkep self h `max` length d)%nat.
Proof.
  unfold nkep.
  destruct (decide (l = self)) as [->|Hne].
  { rewrite lookup_insert_eq. lia. }
  rewrite lookup_insert_ne by done.
  destruct (h !! self) as [[]|]; try lia.
  destruct (decide (l = o_keplerian o)) as [->|Hne'].
  { rewrite lookup_insert_eq. lia. }
  rewrite lookup_insert_ne by done. lia.
Qed.

Lemma wp_world {A} (m : M A) (Phi : world -> Prop) w :
  wp m (fun _ w' => Phi w') Phi w <-> Phi (world_of (m w)).
Proof. unfold wp. by destruct (m w). Qed.

Lemma wp_snapshot self Q E w :
  (forall s, state_of self (heap w) = Some s -> Q s w) -> E w ->
  wp (snapshot self) Q E w.
Proof.
  intros HQ HE. eapply wp_mono; [| |apply snapshot_spec]; simpl.
  - intros s w' [-> Ho]. apply HQ. by apply state_of_owns.
  - by intros w' ->.
Qed.

Section Counting.
Context `{Kepmodel}.

Lemma rises_nkep_add_keplerian_from_period model period :
  rises (fun w => nkep model (heap w)) 1
        (add_keplerian_from_period model period).
Proof.
  intros w. apply (wp_world _ (fun w' => (nkep model (heap w') <= _)%nat)).
  unfold add_keplerian_from_period.
  rewrite wp_bind, wp_emit, wp_bind. apply wp_snapshot; simpl; [|lia].
  intros s _. rewrite wp_bind, wp_load_model. simpl.
  destruct (heap w !! model) as [[]|] eqn:Hm; try lia.
  rewrite wp_bind, wp_load_dict. simpl.
  destruct (heap w !! o_keplerian o) as [[]|] eqn:Hd; try lia.
  assert (nkep model (heap w) = length d) as Hn.
  { unfold nkep. by rewrite Hm, Hd. }
  rewrite wp_bind, wp_alloc. simpl.
  set (kl := fresh (dom (heap w))).
  set (k := CKeplerian _).
  pose proof (nkep_put_leaf model kl k (heap w) I) as H1.
  rewrite wp_bind, wp_store. simpl.
  destruct (<[kl := k]> (heap w) !! o_keplerian o); simpl; [|lia].
  set (d' := dict_set _ kl d).
  pose proof (nkep_put_dict model (o_keplerian o) d' (<[kl := k]> (heap w))) as H2.
  pose proof (dict_set_length (pretty (length d)) kl d) as H3. fold d' in H3.
  rewrite wp_bind, wp_load_names. simpl.
  destruct (<[o_keplerian o := CDict d']> (<[kl := k]> (heap w)) !! o_fit_param o)
    as [[]|]; try lia.
  rewrite wp_store. simpl.
  destruct (<[o_keplerian o := CDict d']> (<[kl := k]> (heap w)) !! o_fit_param o);
    simpl; [|lia].
  match goal with |- (nkep model (<[?a := ?c]> ?h) <= _)%nat =>
    pose proof (nkep_put_leaf model a c h I) end.
  lia.
Qed.

(** C4.  The loop over [range(n)] runs the search at most [n] times and
    calls [add_keplerian_from_period] at most [n] times, so the model gains
    at most [n] components, whatever the heap it starts from and whether it
    ends normally or by an exception; being a structural recursion over the
    range, it always ends.  The notebook's cell runs it with [n = 1]. *)
Theorem C4_loop_bounded (model : loc) (n : nat) (w : world) :
  let w' := world_of (detection_loop model n w) in
  (count is_periodogram (trace w') <= count is_periodogram (trace w) + n)%nat
  /\ (count is_add_keplerian (trace w') <= count is_add_keplerian (trace w) + n)%nat
  /\ (nkep model (heap w') <= nkep model (heap w) + n)%nat
  /\ forall single_star_model,
       keplerian_cell single_star_model
       = (m ← deepcopy single_star_model; detection_loop m 1;; mret m).
Proof.
  split_and!.
  - pose proof (rises_for_range (fun w => count is_periodogram (trace w))
                  (seq 0 n) (detection_iteration model) 1) as Hr.
    rewrite length_seq, Nat.mul_1_r in Hr. apply Hr. intros i.
    apply (rises_detection_iteration _ is_periodogram (fun _ => True))
      with (ka := 0%nat).
    + apply count_log.
    + intros l c w0 _. simpl. lia.
    + done.
    + intros period.
      apply (rises_add_keplerian_from_period _ is_periodogram (fun _ => True)).
      * apply count_log.
      * intros l c w0 _. simpl. lia.
      * done.
      * done.
    + intros a b. unfold weight. simpl. lia.
  - pose proof (rises_for_range (fun w => count is_add_keplerian (trace w))
                  (seq 0 n) (detection_iteration model) 1) as Hr.
    rewrite length_seq, Nat.mul_1_r in Hr. apply Hr. intros i.
    apply (rises_detection_iteration _ is_add_keplerian (fun _ => True))
      with (ka := 1%nat).
    + apply count_log.
    + intros l c w0 _. simpl. lia.
    + done.
    + intros period.
      apply (rises_add_keplerian_from_period _ is_add_keplerian (fun _ => True)).
      * apply count_log.
      * intros l c w0 _. simpl. lia.
      * done.
      * done.
    + intros a b. unfold weight. simpl. lia.
  - pose proof (rises_for_range (fun w => nkep model (heap w))
                  (seq 0 n) (detection_iteration model) 1) as Hr.
    rewrite length_seq, Nat.mul_1_r in Hr. apply Hr. intros i.
    apply (rises_detection_iteration _ (fun _ => false) leaf)
      with (ka := 1%nat).
    + intros c w0. unfold weight. simpl. lia.
    + intros l c w0 Hc. simpl. by apply nkep_put_leaf.
    + done.
    + apply rises_nkep_add_keplerian_from_period.
    + intros a b. unfold weight. simpl. lia.
  - done.
Qed.

End Counting.

(** ** The peak of the periodogram *)

Section Argmax.
Import FloatOrder.

Lemma np_le_nan x y : PrimFloat.is_nan y = true -> Py.np_le x y = true.
Proof. unfold Py.np_le. by intros ->. Qed.

Lemma np_le_leb x y :
  PrimFloat.is_nan y = false -> Py.np_le x y = PrimFloat.leb x y.
Proof. unfold Py.np_le. by intros ->. Qed.

Lemma np_le_refl x : Py.np_le x x = true.
Proof.
  unfold Py.np_le. destruct (PrimFloat.is_nan x) eqn:Hx; [done|].
  by apply leb_refl.
Qed.

(** A candidate that is not [<=] the running maximum is above it and above
    everything the maximum is above. *)
Lemma np_le_step x best y :
  PrimFloat.is_nan best = false -> PrimFloat.leb x best = false ->
  Py.np_le y best = true -> Py.np_le y x = true /\ Py.np_le x y = false.
Proof.
  intros Hb Hx Hy. rewrite np_le_leb in Hy by done.
  destruct (leb_ordered _ _ Hy) as [Hyn _].
  unfold Py.np_le. rewrite Hyn. simpl.
  destruct (PrimFloat.is_nan x) eqn:Hxn; simpl.
  - split; [done|]. destruct (PrimFloat.leb x y) eqn:Hxy; [|done].
    destruct (leb_ordered _ _ Hxy) as [Hxn' _]. congruence.
  - split.
    + eapply leb_trans; [apply Hy|]. by apply leb_total.
    + destruct (PrimFloat.leb x y) eqn:Hxy; [|done].
      rewrite (leb_trans _ _ _ Hxy Hy) in Hx. done.
Qed.

Lemma argmax_scan_spec (l pre : list float) (best : float) (ibest : nat) :
  pre !! ibest = Some best ->
  (forall j x, pre !! j = Some x -> Py.np_le x best = true) ->
  (forall j x, (j < ibest)%nat -> pre !! j = Some x -> Py.np_le best x = false) ->
  let k := Py.argmax_scan best ibest (length pre) l in
  exists b, (pre ++ l) !! k = Some b
            /\ (forall j x, (pre ++ l) !! j = Some x -> Py.np_le x b = true)
            /\ (forall j x, (j < k)%nat -> (pre ++ l) !! j = Some x ->
                            Py.np_le b x = false).
Proof.
  revert pre best ibest. induction l as [|x l IH]; intros pre best ibest Hb H1 H2.
  - simpl. rewrite app_nil_r. eauto.
  - assert (ibest < length pre)%nat as Hlt by (by eapply lookup_lt_Some).
    simpl. destruct (PrimFloat.is_nan best) eqn:Hnan.
    + exists best. split_and!.
      * by rewrite lookup_app_l.
      * intros j y _. by apply np_le_nan.
      * intros j y Hj. rewrite lookup_app_l by lia. by apply H2.
    + destruct (PrimFloat.leb x best) eqn:Hx; simpl.
      * specialize (IH (pre ++ [x]) best ibest).
        rewrite length_app, Nat.add_1_r, <- app_assoc in IH. apply IH.
        -- by rewrite lookup_app_l.
        -- intros j y Hj. apply lookup_app_Some in Hj as [Hj|[_ Hj]]; [eauto|].
           apply list_lookup_singleton_Some in Hj as [_ <-].
           by rewrite np_le_leb.
        -- intros j y Hj Hy. rewrite lookup_app_l in Hy by lia. eauto.
      * specialize (IH (pre ++ [x]) x (length pre)).
        rewrite length_app, Nat.add_1_r, <- app_assoc in IH. apply IH.
        -- rewrite lookup_app_r by lia. by rewrite Nat.sub_diag.
        -- intros j y Hj. apply lookup_app_Some in Hj as [Hj|[_ Hj]].
           ++ by apply (np_le_step x best y); eauto.
           ++ apply list_lookup_singleton_Some in Hj as [_ <-].
              apply np_le_refl.
        -- intros j y Hj Hy. rewrite lookup_app_l in Hy by lia.
           by apply (np_le_step x best y); eauto.
Qed.

Lemma np_argmax_spec (a : list float) :
  a <> [] ->
  exists k b, Py.np_argmax a = Some k /\ a !! k = Some b
              /\ (forall j x, a !! j = Some x -> Py.np_le x b = true)
              /\ (forall j x, (j < k)%nat -> a !! j = Some x ->
                              Py.np_le b x = false).
Proof.
  destruct a as [|x l]; [done|]. intros _. simpl.
  destruct (argmax_scan_spec l [x] x 0) as (b & Hb & Hmax & Hfirst).
  - done.
  - intros [|j] y; simpl; [|done]. intros [= <-]. apply np_le_refl.
  - intros j y Hj. lia.
  - exists (Py.argmax_scan x 0 1 l), b. by split_and!.
Qed.

End Argmax.

(** ** One iteration, step by step *)

Lemma fresh_ne (h : gmap loc cell) l c : h !! l = Some c -> fresh (dom h) <> l.
Proof.
  intros Hl Heq. apply (is_fresh (dom h)). rewrite Heq.
  apply elem_of_dom. by exists c.
Qed.

Lemma wp_snapshot_known self s Q E w :
  state_of self (heap w) = Some s -> wp (snapshot self) Q E w <-> Q s w.
Proof. intros Hs. unfold wp. by rewrite (snapshot_state_of self w s). Qed.

Section Iteration.
Context `{Kepmodel}.

Lemma residuals_run self s w :
  state_of self (heap w) = Some s ->
  residuals self w = Ok (residuals_of s) (log (CallResiduals self) w).
Proof.
  intros Hs. apply wp_exact. unfold residuals.
  rewrite wp_bind, wp_emit, wp_bind, (wp_snapshot_known _ s) by done.
  by rewrite wp_ret.
Qed.

Lemma periodogram_run self a d n s w :
  state_of self (heap w) = Some s ->
  periodogram self a d n w
  = Ok (periodogram_grid a d n, power_at s <$> periodogram_grid a d n)
       (log (CallPeriodogram self a d n) w).
Proof.
  intros Hs. apply wp_exact. unfold periodogram.
  rewrite wp_bind, wp_emit, wp_bind, (wp_snapshot_known _ s) by done.
  by rewrite wp_ret.
Qed.

Lemma fap_run self peak numax s w :
  state_of self (heap w) = Some s ->
  fap self peak numax w
  = Ok (fap_of s peak numax) (log (CallFap self peak numax) w).
Proof.
  intros Hs. apply wp_exact. unfold fap.
  rewrite wp_bind, wp_emit, wp_bind, (wp_snapshot_known _ s) by done.
  by rewrite wp_ret.
Qed.

Lemma add_keplerian_from_period_run self period s w :
  state_of self (heap w) = Some s ->
  exists w', add_keplerian_from_period self period w = Ok tt w'
             /\ trace w' = trace w ++ [CallAddKeplerianFromPeriod self period].
Proof.
  intros Hs. pose proof Hs as Ho. apply state_of_owns in Ho as (o & d & Ho).
  destruct Ho as (Hself & Hcov & Hln & HlM & Hlp & Hfp & Hd & Hks & _).
  set (k := CKeplerian {| k_param := keplerian_default_param;
                          k_par := keplerian_from_period s period |}).
  set (kl := fresh (dom (heap w))).
  set (d' := dict_set (pretty (length d)) kl d).
  exists {| heap := <[o_fit_param o :=
                        CNames (m_fit_param s
                                ++ kep_names (pretty (length d))
                                             keplerian_default_param)]>
                      (<[o_keplerian o := CDict d']> (<[kl := k]> (heap w)));
            trace := trace w ++ [CallAddKeplerianFromPeriod self period] |}.
  split; [|done]. apply wp_exact. unfold add_keplerian_from_period.
  rewrite wp_bind, wp_emit, wp_bind, (wp_snapshot_known _ s) by done.
  rewrite wp_bind, wp_load_model. simpl. rewrite Hself.
  rewrite wp_bind, wp_load_dict. simpl. rewrite Hd.
  rewrite wp_bind, wp_alloc. simpl. fold kl k.
  assert (kl <> o_keplerian o) by (by eapply fresh_ne).
  assert (kl <> o_fit_param o) by (by eapply fresh_ne).
  assert (o_keplerian o <> o_fit_param o) by congruence.
  rewrite wp_bind, wp_store. simpl. rewrite lookup_insert_ne, Hd by done.
  fold d'. rewrite wp_bind, wp_load_names. simpl.
  rewrite !lookup_insert_ne, Hfp by done.
  rewrite wp_store. simpl. rewrite !lookup_insert_ne, Hfp by done.
  done.
Qed.

End Iteration.

(** ** Computations only append to the trace *)

Section Extends.
Context `{Kepmodel}.

Lemma extends_bind {A B} (m : M A) (f : A -> M B) :
  extends m -> (forall a, extends (f a)) -> extends (mbind f m).
Proof.
  intros Hm Hf w. unfold mbind, M_bind, bind. destruct (Hm w) as [e1 He1].
  destruct (m w) as [a w'|e w']; simpl in *; [|eauto].
  destruct (Hf a w') as [e2 He2]. exists (e1 ++ e2).
  by rewrite He2, He1, app_assoc.
Qed.

Lemma extends_reads {A} (m : M A) : (forall w, world_of (m w) = w) -> extends m.
Proof. intros Hm w. exists []. by rewrite Hm, app_nil_r. Qed.

Lemma extends_ret {A} (a : A) : extends (mret a).
Proof. by apply extends_reads. Qed.

Lemma extends_raise {A} e : extends (raise (A := A) e).
Proof. by apply extends_reads. Qed.

Lemma extends_of_option {A} e (x : option A) : extends (of_option e x).
Proof. apply extends_reads. by destruct x. Qed.

Lemma extends_emit c : extends (emit c).
Proof. intros w. by exists [c]. Qed.

Lemma extends_alloc c : extends (alloc c).
Proof. intros w. exists []. simpl. by rewrite app_nil_r. Qed.

Lemma extends_store l c : extends (store l c).
Proof.
  intros w. exists []. unfold store.
  destruct (heap w !! l); simpl; by rewrite app_nil_r.
Qed.

Lemma extends_snapshot self : extends (snapshot self).
Proof. apply extends_reads, snapshot_world. Qed.

Ltac reads_load :=
  apply extends_reads; intros w;
  unfold load_cov, load_names, load_matrix, load_array, load_keplerian,
         load_dict, load_model, mbind, M_bind, bind, load;
  destruct (heap w !! _) as [[]|]; done.

Lemma extends_load_names l : extends (load_names l).
Proof. reads_load. Qed.
Lemma extends_load_keplerian l : extends (load_keplerian l).
Proof. reads_load. Qed.
Lemma extends_load_dict l : extends (load_dict l).
Proof. reads_load. Qed.
Lemma extends_load_model l : extends (load_model l).
Proof. reads_load. Qed.

Lemma extends_for_each {A} (xs : list A) (body : A -> M unit) :
  (forall x, extends (body x)) -> extends (for_each xs body).
Proof.
  intros Hb. induction xs as [|x xs IH]; simpl; [apply extends_ret|].
  apply extends_bind; auto.
Qed.

Ltac extends_go :=
  repeat match goal with
    | |- extends (mbind _ _) => apply extends_bind; [|intros ?]
    | |- extends (snapshot _) => apply extends_snapshot
    | |- extends (load_names _) => apply extends_load_names
    | |- extends (load_keplerian _) => apply extends_load_keplerian
    | |- extends (load_dict _) => apply extends_load_dict
    | |- extends (load_model _) => apply extends_load_model
    | |- extends (of_option _ _) => apply extends_of_option
    | |- extends (emit _) => apply extends_emit
    | |- extends (alloc _) => apply extends_alloc
    | |- extends (store _ _) => apply extends_store
    | |- extends (mret _) => apply extends_ret
    | |- extends (raise _) => apply extends_raise
    | |- extends (let '(_, _) := ?x in _) => destruct x
    | |- extends (let _ := _ in _) => simpl
    end.

Lemma extends_fit self : extends (fit self).
Proof.
  unfold fit. extends_go. apply extends_for_each. intros [label kl]. extends_go.
Qed.

Lemma extends_set_keplerian_param self name ps :
  extends (set_keplerian_param self name ps).
Proof. unfold set_keplerian_param. extends_go. Qed.

Lemma emit_then_trace {A} c (f : unit -> M A) w :
  (forall a, extends (f a)) ->
  exists rest, trace (world_of (mbind f (emit c) w)) = trace w ++ c :: rest.
Proof.
  intros Hf. unfold mbind, M_bind, bind. simpl.
  destruct (Hf tt {| heap := heap w; trace := trace w ++ [c] |}) as [rest Hr].
  exists rest. rewrite Hr. simpl. by rewrite <- app_assoc.
Qed.

Lemma then_trace {A B} c (m : M A) (f : A -> M B) w :
  (forall w0, exists rest, trace (world_of (m w0)) = trace w0 ++ c :: rest) ->
  (forall a, extends (f a)) ->
  exists rest, trace (world_of (mbind f m w)) = trace w ++ c :: rest.
Proof.
  intros Hm Hf. unfold mbind, M_bind, bind. destruct (Hm w) as [r1 Hr1].
  destruct (m w) as [a w'|e w']; simpl in *; [|eauto].
  destruct (Hf a w') as [r2 Hr2]. exists (r1 ++ r2).
  rewrite Hr2, Hr1. by rewrite <- app_assoc.
Qed.

(** [fit] logs its call before anything else. *)
Lemma fit_trace self w :
  exists rest, trace (world_of (fit self w)) = trace w ++ CallFit self :: rest.
Proof.
  unfold fit. apply emit_then_trace. intros _. extends_go.
  apply extends_for_each. intros [label kl]. extends_go.
Qed.

End Extends.

(** ** What one iteration does *)


Lemma bind_Ok {A B} (m : M A) (f : A -> M B) w a w' :
  m w = Ok a w' -> mbind f m w = f a w'.
Proof. unfold mbind, M_bind, bind. by intros ->. Qed.

Lemma nu_length : length nu = Z.to_nat 10000.
Proof. unfold nu. by rewrite periodogram_grid_length. Qed.

Lemma np_max_is_Some (a : list float) : a <> [] -> is_Some (Py.np_max a).
Proof. destruct a; [done|]. simpl. eauto. Qed.

Section IterationValues.
Context `{Kepmodel}.

(** The peak: its index, frequency and power, the largest searched
    frequency, and the period handed on. *)
Lemma iteration_values (s : AstroModel) :
  exists k nustar peak numax,
    kmax s = Some k /\ nu !! k = Some nustar /\ power s !! k = Some peak
    /\ Py.np_max nu = Some numax
    /\ P !! k = Some (PrimFloat.div
                        (PrimFloat.mul (Py.float_of_int 2) Py.np_pi) nustar)
    /\ faplvl s = Some (fap_of s peak numax)
    /\ (forall j x, power s !! j = Some x -> Py.np_le x peak = true)
    /\ (forall j x, (j < k)%nat -> power s !! j = Some x ->
                    Py.np_le peak x = false).
Proof.
  assert (nu <> []) as Hnu.
  { intros Heq. pose proof nu_length as Hl. rewrite Heq in Hl.
    change (length (@nil float)) with 0%nat in Hl. lia. }
  assert (power s <> []) as Hp.
  { unfold power. intros Heq. apply fmap_nil_inv in Heq. done. }
  destruct (np_argmax_spec (power s) Hp) as (k & peak & Hk & Hpk & Hmax & Hfirst).
  destruct (np_max_is_Some nu Hnu) as [numax Hnm].
  pose proof Hpk as Hpk'. unfold power in Hpk'.
  rewrite list_lookup_fmap in Hpk'.
  destruct (nu !! k) as [nustar|] eqn:Hnk; [|done].
  exists k, nustar, peak, numax. split_and!.
  - exact Hk.
  - exact Hnk.
  - exact Hpk.
  - exact Hnm.
  - unfold P, Py.np_rdiv. rewrite list_lookup_fmap, Hnk. reflexivity.
  - unfold faplvl, kmax. rewrite Hk. cbn [mbind option_bind].
    rewrite Hpk. cbn [mbind option_bind]. rewrite Hnm. reflexivity.
  - exact Hmax.
  - exact Hfirst.
Qed.

Lemma detection_iteration_run model kpla s w k peak numax Pk :
  state_of model (heap w) = Some s ->
  kmax s = Some k -> power s !! k = Some peak ->
  Py.np_max nu = Some numax -> P !! k = Some Pk ->
  detection_iteration model kpla w
  = let w1 := {| heap := heap w;
                 trace := trace w ++ [CallResiduals model;
                                      CallPeriodogram model nu0 dnu nfreq;
                                      CallFap model peak numax] |} in
    if Py.gt (fap_of s peak numax) fap_threshold then Ok Break w1
    else (add_keplerian_from_period model Pk;;
          fit model;;
          set_keplerian_param model (pretty kpla) param;;
          mret Next) w1.
Proof.
  intros Hs Hk Hpk Hnm HPk. unfold detection_iteration.
  erewrite bind_Ok; [|by apply residuals_run].
  erewrite bind_Ok; [|by apply periodogram_run]. cbv beta iota.
  change (periodogram_grid nu0 dnu nfreq) with nu.
  change (power_at s <$> nu) with (power s).
  change (Py.np_argmax (power s)) with (kmax s).
  change (Py.np_rdiv _ nu) with P.
  rewrite Hk. erewrite bind_Ok; [|reflexivity].
  rewrite Hpk. erewrite bind_Ok; [|reflexivity].
  rewrite Hnm. erewrite bind_Ok; [|reflexivity].
  erewrite bind_Ok; [|by apply fap_run].
  rewrite HPk. erewrite bind_Ok; [|reflexivity].
  unfold log. simpl. rewrite <- !app_assoc. simpl.
  by destruct (Py.gt _ _).
Qed.

End IterationValues.

(** ** The threshold rule and the period handed on *)

Section Decision.
Context `{Kepmodel}.

Lemma then_not_Break (m : M unit) (k : M flow) :
  (forall w w', k w <> Ok Break w') ->
  forall w w', (m;; k) w <> Ok Break w'.
Proof.
  intros Hk w w'. unfold mbind, M_bind, bind. destruct (m w); [apply Hk|done].
Qed.

Lemma accept_not_Break model period (kpla : nat) w w' :
  (add_keplerian_from_period model period;;
   fit model;;
   set_keplerian_param model (pretty kpla) param;;
   mret Next) w <> Ok Break w'.
Proof. revert w w'. repeat (apply then_not_Break). done. Qed.

(** After the search, an accepted iteration calls
    [add_keplerian_from_period] and then [fit]. *)
Lemma accept_trace model period (kpla : nat) s w :
  state_of model (heap w) = Some s ->
  exists rest,
    trace (world_of ((add_keplerian_from_period model period;;
                      fit model;;
                      set_keplerian_param model (pretty kpla) param;;
                      mret Next) w))
    = trace w ++ CallAddKeplerianFromPeriod model period
                 :: CallFit model :: rest.
Proof.
  intros Hs.
  destruct (add_keplerian_from_period_run model period s w Hs) as (w2 & Hrun & Htr).
  erewrite bind_Ok by exact Hrun.
  destruct (then_trace (CallFit model) (fit model)
              (fun _ => set_keplerian_param model (pretty kpla) param;; mret Next)
              w2) as [rest Hrest].
  - apply fit_trace.
  - intros _. apply extends_bind; [apply extends_set_keplerian_param|].
    intros _. apply extends_ret.
  - exists rest. rewrite Hrest, Htr. by rewrite <- app_assoc.
Qed.

End Decision.

Section Claims.
Context `{Kepmodel}.

Lemma search_calls_eq model s k peak numax :
  kmax s = Some k -> power s !! k = Some peak -> Py.np_max nu = Some numax ->
  search_calls model s
  = [CallResiduals model; CallPeriodogram model nu0 dnu nfreq;
     CallFap model peak numax].
Proof. intros Hk Hp Hn. unfold search_calls. by rewrite Hk, Hn, Hp. Qed.

(** C1, as the notebook has it.  With [f] the false-alarm probability of the
    peak: when [f > fap_threshold] the iteration breaks out of the loop, the
    heap untouched; in every other case it calls
    [add_keplerian_from_period] and then [fit], and does not break.  The
    other case includes [f < fap_threshold] and [f = fap_threshold]: at the
    threshold itself the component is added. *)
Theorem C1_threshold_rule (model : loc) (kpla : nat) (s : AstroModel) (w : world) :
  state_of model (heap w) = Some s ->
  exists f,
    faplvl s = Some f
    /\ (Py.gt f fap_threshold = true ->
        detection_iteration model kpla w
        = Ok Break {| heap := heap w;
                      trace := trace w ++ search_calls model s |})
    /\ (Py.gt f fap_threshold = false ->
        (forall w', detection_iteration model kpla w <> Ok Break w')
        /\ exists period rest,
             trace (world_of (detection_iteration model kpla w))
             = trace w ++ search_calls model s
               ++ CallAddKeplerianFromPeriod model period
                  :: CallFit model :: rest)
    /\ (PrimFloat.ltb f fap_threshold = true -> Py.gt f fap_threshold = false)
    /\ (f = fap_threshold -> Py.gt f fap_threshold = false).
Proof.
  intros Hs.
  destruct (iteration_values s)
    as (k & nustar & peak & numax & Hk & Hnk & Hpk & Hnm & HP & Hf & _).
  exists (fap_of s peak numax). split; [done|].
  pose proof (detection_iteration_run model kpla s w k peak numax _
                Hs Hk Hpk Hnm HP) as Hrun. cbv zeta in Hrun.
  rewrite (search_calls_eq model s k peak numax) by done.
  split_and!.
  - intros Hgt. by rewrite Hrun, Hgt.
  - intros Hgt. rewrite Hrun, Hgt. split.
    + intros w'. apply accept_not_Break.
    + match goal with
      | |- context [world_of ((add_keplerian_from_period _ ?p;; _) ?w1)] =>
          destruct (accept_trace model p kpla s w1 Hs) as [rest Hrest]
      end.
      eexists _, rest. rewrite Hrest. simpl. by rewrite <- app_assoc.
  - unfold Py.gt. apply FloatOrder.ltb_asym.
  - intros ->. unfold Py.gt. apply FloatOrder.ltb_irrefl.
Qed.

End Claims.

Lemma C1_threshold_rule_witness :
  state_of Sample.single_star_model (heap (Sample.before 0.5))
  = Some (Sample.state 0.5)
  /\ exists f, @faplvl (Sample.numerics 0.5) (Sample.state 0.5) = Some f
               /\ Py.gt f fap_threshold = true.
Proof.
  assert (state_of Sample.single_star_model (heap (Sample.before 0.5))
          = Some (Sample.state 0.5)) as Hs by (vm_compute; reflexivity).
  split; [exact Hs|].
  destruct (@C1_threshold_rule (Sample.numerics 0.5)
              Sample.single_star_model 0 _ _ Hs) as (f & Hf & _).
  exists f. split; [exact Hf|].
  assert (@faplvl (Sample.numerics 0.5) (Sample.state 0.5) = Some 0.5%float)
    as Hf' by (vm_compute; reflexivity).
  rewrite Hf' in Hf. injection Hf as <-. vm_compute. reflexivity.
Defined.

(** The claim as stated fails at the threshold: with a false-alarm
    probability equal to [fap_threshold] (so [f >= fap_threshold] holds) the
    iteration does not stop; it goes on to the next round with one more
    Keplerian component in the model. *)
Lemma C1_counterexample :
  @faplvl (Sample.numerics fap_threshold) (Sample.state fap_threshold)
  = Some fap_threshold
  /\ PrimFloat.leb fap_threshold fap_threshold = true
  /\ nkep Sample.single_star_model (heap (Sample.before fap_threshold)) = 0%nat
  /\ exists w',
       @detection_iteration (Sample.numerics fap_threshold)
         Sample.single_star_model 0 (Sample.before fap_threshold)
       = Ok Next w'
       /\ nkep Sample.single_star_model (heap w') = 1%nat.
Proof.
  split_and!.
  - vm_compute. reflexivity.
  - vm_compute. reflexivity.
  - vm_compute. reflexivity.
  - eexists. split.
    + vm_compute. reflexivity.
    + vm_compute. reflexivity.
Qed.

Section Peak.
Context `{Kepmodel}.


End Peak.


(** ** The frequencies of the periodogram *)

Section Grid.
Context `{Kepmodel}.

Lemma power_lookup (s : AstroModel) (k : nat) :
  (k < Z.to_nat 10000)%nat ->
  power s !! k
  = Some (power_at s (nu0 + Py.float_of_int (Z.of_nat k) * dnu)%float).
Proof.
  intros Hk. unfold power, nu.
  rewrite list_lookup_fmap, periodogram_grid_lookup by exact Hk. reflexivity.
Qed.

Lemma iteration_periodogram_once (model : loc) (kpla : nat) (s : AstroModel)
    (w : world) :
  state_of model (heap w) = Some s ->
  exists rest,
    trace (world_of (detection_iteration model kpla w))
    = trace w ++ CallResiduals model
                 :: CallPeriodogram model nu0 dnu nfreq :: rest
    /\ count is_periodogram rest = 0%nat.
Proof.
  intros Hs.
  destruct (iteration_values s)
    as (k & nustar & peak & numax & Hk & Hnk & Hpk & Hnm & HP & _).
  pose proof (detection_iteration_run model kpla s w k peak numax _
                Hs Hk Hpk Hnm HP) as Hrun. cbv zeta in Hrun.
  assert (exists rest,
            trace (world_of (detection_iteration model kpla w))
            = trace w ++ CallResiduals model
                         :: CallPeriodogram model nu0 dnu nfreq :: rest)
    as (rest & Htr).
  { rewrite Hrun. destruct (Py.gt _ _).
    - eexists. reflexivity.
    - match goal with
      | |- context [world_of ((add_keplerian_from_period _ ?p;; _) ?w1)] =>
          destruct (accept_trace model p kpla s w1 Hs) as [rest Hrest]
      end.
      eexists. rewrite Hrest. simpl. rewrite <- app_assoc. reflexivity. }
  exists rest. split; [exact Htr|].
  pose proof (rises_detection_iteration
                (fun w => count is_periodogram (trace w))
                is_periodogram (fun _ => True)) as Hrise.
  specialize (Hrise (count_log is_periodogram)).
  specialize (Hrise (fun l c w0 _ => Nat.le_refl _) (fun c _ => I)).
  specialize (Hrise model kpla 0%nat 1%nat).
  assert (count is_periodogram (trace (world_of (detection_iteration model kpla w)))
          <= count is_periodogram (trace w) + 1)%nat as Hle.
  { apply Hrise.
    - intros period.
      apply (rises_add_keplerian_from_period _ is_periodogram (fun _ => True)).
      + apply count_log.
      + intros l c w0 _. simpl. lia.
      + done.
      + done.
    - intros a b. unfold weight. simpl. lia. }
  rewrite Htr in Hle. rewrite count_app, !count_cons in Hle.
  unfold weight in Hle. simpl in Hle. lia.
Qed.

(** C3.  The trial frequencies are the 10000 values [nu0 + k * dnu],
    [k = 0 .. 9999], with [nu0 = 2 pi / Pmax] and
    [dnu = (2 pi / Pmin - nu0) / (nfreq - 1)]; the first is the frequency of
    period [Pmax = 50000], the last is [2 pi / Pmin], and the period the
    notebook computes for the last one, [2 pi / nu], is the float 5.  These
    are the frequencies the loop works with: on a model whose state can be
    read, the call [model.periodogram(nu0, dnu, nfreq)] returns this grid
    together with the power at each of its frequencies, [nu.max()] is the
    last of them, and every iteration makes this call exactly once, right
    after [residuals]. *)
Theorem C3_periodogram_grid :
  length nu = Z.to_nat 10000
  /\ (forall k : nat, (k < Z.to_nat 10000)%nat ->
        nu !! k = Some (nu0 + Py.float_of_int (Z.of_nat k) * dnu)%float)
  /\ nu0 = (2 * Py.np_pi / 50000)%float
  /\ dnu = ((2 * Py.np_pi / 5 - nu0) / 9999)%float
  /\ nu !! Z.to_nat 0 = Some (2 * Py.np_pi / 50000)%float
  /\ nu !! Z.to_nat 9999 = Some (2 * Py.np_pi / 5)%float
  /\ P !! Z.to_nat 9999 = Some 5%float
  /\ Py.np_max nu = Some (2 * Py.np_pi / 5)%float
  /\ (forall model s w,
        state_of model (heap w) = Some s ->
        periodogram model nu0 dnu nfreq w
        = Ok (nu, power s) (log (CallPeriodogram model nu0 dnu nfreq) w))
  /\ (forall s, length (power s) = Z.to_nat 10000)
  /\ (forall s (k : nat), (k < Z.to_nat 10000)%nat ->
        power s !! k
        = Some (power_at s (nu0 + Py.float_of_int (Z.of_nat k) * dnu)%float))
  /\ (forall model kpla s w,
        state_of model (heap w) = Some s ->
        exists rest,
          trace (world_of (detection_iteration model kpla w))
          = trace w ++ CallResiduals model
                       :: CallPeriodogram model nu0 dnu nfreq :: rest
          /\ count is_periodogram rest = 0%nat).
Proof.
  split_and!.
  - unfold nu. by rewrite periodogram_grid_length.
  - intros k Hk. unfold nu. by apply periodogram_grid_lookup.
  - vm_compute. reflexivity.
  - vm_compute. reflexivity.
  - vm_compute. reflexivity.
  - vm_compute. reflexivity.
  - vm_compute. reflexivity.
  - vm_compute. reflexivity.
  - intros model s w Hs. exact (periodogram_run model nu0 dnu nfreq s w Hs).
  - intros s. unfold power. rewrite length_fmap. apply nu_length.
  - apply power_lookup.
  - apply iteration_periodogram_once.
Qed.

End Grid.

Lemma C3_periodogram_grid_witness :
  state_of Sample.single_star_model (heap (Sample.before 0.0001))
  = Some (Sample.state 0.0001)
  /\ exists rest,
       trace (world_of (@detection_iteration (Sample.numerics 0.0001)
                          Sample.single_star_model 0 (Sample.before 0.0001)))
       = trace (Sample.before 0.0001)
         ++ CallResiduals Sample.single_star_model
            :: CallPeriodogram Sample.single_star_model nu0 dnu nfreq :: rest.
Proof.
  assert (state_of Sample.single_star_model (heap (Sample.before 0.0001))
          = Some (Sample.state 0.0001)) as Hs by (vm_compute; reflexivity).
  split; [exact Hs|].
  destruct (@C3_periodogram_grid (Sample.numerics 0.0001))
    as (_ & _ & _ & _ & _ & _ & _ & _ & _ & _ & _ & Hiter).
  destruct (Hiter Sample.single_star_model 0%nat _ _ Hs) as (rest & Htr & _).
  exists rest. exact Htr.
Defined.

(** The sample run accepts its peak: the last trial frequency, period 5. *)
Example sample_accepts :
  exists w',
    @detection_iteration (Sample.numerics 0.0001)
      Sample.single_star_model 0 (Sample.before 0.0001) = Ok Next w'
    /\ trace w'
       = trace (Sample.before 0.0001)
         ++ [CallResiduals Sample.single_star_model;
             CallPeriodogram Sample.single_star_model nu0 dnu nfreq;
             CallFap Sample.single_star_model
                     0.75663706143591725%float 1.2566370614359172%float;
             CallAddKeplerianFromPeriod Sample.single_star_model 5%float;
             CallFit Sample.single_star_model;
             CallSetKeplerianParam Sample.single_star_model "0" param].
Proof. eexists. split; vm_compute; reflexivity. Qed.

(** ** The single-star model *)

Ltac heap_lookup :=
  repeat first
    [ rewrite lookup_insert_eq; reflexivity
    | rewrite lookup_insert_ne by congruence ];
  try assumption.

Lemma lookup_put_fresh (h : gmap loc cell) l c c' :
  h !! l = Some c -> <[fresh (dom h) := c']> h !! l = Some c.
Proof.
  intros Hl. rewrite lookup_insert_ne; [done|]. by eapply fresh_ne.
Qed.

Section SingleStar.
Context `{Kepmodel}.

Lemma AstrometricModel_run t y cpsi spsi err jit w :
  exists self o w',
    AstrometricModel t y cpsi spsi err jit w = Ok self w'
    /\ trace w' = trace w
    /\ owns (heap w') self o [] (new_state t y cpsi spsi err jit)
    /\ o_lin_name o <> o_fit_param o.
Proof.
  set (h0 := heap w).
  set (l1 := fresh (dom h0)). set (h1 := <[l1 := CCov err jit]> h0).
  set (l2 := fresh (dom h1)). set (h2 := <[l2 := CNames []]> h1).
  set (l3 := fresh (dom h2)). set (h3 := <[l3 := CMatrix []]> h2).
  set (l4 := fresh (dom h3)). set (h4 := <[l4 := CArray []]> h3).
  set (l5 := fresh (dom h4)). set (h5 := <[l5 := CNames []]> h4).
  set (l6 := fresh (dom h5)). set (h6 := <[l6 := CDict []]> h5).
  set (l7 := fresh (dom h6)).
  set (o := {| o_t := t; o_y := y; o_cpsi := cpsi; o_spsi := spsi;
               o_cov := l1; o_lin_name := l2; o_lin_M := l3;
               o_lin_par := l4; o_fit_param := l5; o_keplerian := l6 |}).
  exists l7, o, {| heap := <[l7 := CModel o]> h6; trace := trace w |}.
  assert (h1 !! l1 = Some (CCov err jit)) as H11 by apply lookup_insert_eq.
  assert (h2 !! l2 = Some (CNames [])) as H22 by apply lookup_insert_eq.
  assert (h3 !! l3 = Some (CMatrix [])) as H33 by apply lookup_insert_eq.
  assert (h4 !! l4 = Some (CArray [])) as H44 by apply lookup_insert_eq.
  assert (h5 !! l5 = Some (CNames [])) as H55 by apply lookup_insert_eq.
  assert (h6 !! l6 = Some (CDict [])) as H66 by apply lookup_insert_eq.
  assert (h4 !! l2 = Some (CNames [])) as H42
    by (do 2 apply lookup_put_fresh; exact H22).
  split_and!; [done | done | | ].
  - unfold owns. simpl. split_and!; try done.
    + apply lookup_insert_eq.
    + do 6 apply lookup_put_fresh. exact H11.
    + do 5 apply lookup_put_fresh. exact H22.
    + do 4 apply lookup_put_fresh. exact H33.
    + do 3 apply lookup_put_fresh. exact H44.
    + do 2 apply lookup_put_fresh. exact H55.
    + apply lookup_put_fresh. exact H66.
  - simpl. intros Heq. symmetry in Heq. revert Heq. by eapply fresh_ne.
Qed.

Lemma add_lin_run self o s derivative name w :
  owns (heap w) self o [] s -> o_lin_name o <> o_fit_param o ->
  name ∉ m_lin_name s -> length derivative = length (m_t s) ->
  exists w', add_lin self derivative name w = Ok tt w'
             /\ owns (heap w') self o [] (add_lin_state derivative name s).
Proof.
  intros (Hself & Hcov & Hln & HlM & Hlp & Hfp & Hd & Hks & Ht & Hy & Hc & Hs)
         Hne Hname Hlen.
  eexists. split.
  - apply wp_exact. unfold add_lin.
    rewrite wp_bind, wp_emit, wp_bind, wp_load_model. simpl. rewrite Hself.
    rewrite wp_bind, wp_load_names. simpl. rewrite Hln.
    rewrite wp_bind, wp_load_matrix. simpl. rewrite HlM.
    rewrite wp_bind, wp_load_array. simpl. rewrite Hlp.
    rewrite wp_bind, wp_load_names. simpl. rewrite Hfp.
    rewrite decide_False by done.
    rewrite decide_True by congruence.
    rewrite wp_bind, wp_store. simpl. rewrite Hln.
    rewrite wp_bind, wp_store. simpl. rewrite lookup_insert_ne, HlM by congruence.
    rewrite wp_bind, wp_store. simpl. rewrite !lookup_insert_ne, Hlp by congruence.
    rewrite wp_store. simpl. rewrite !lookup_insert_ne, Hfp by congruence.
    apply conj; reflexivity.
  - apply Forall2_nil_inv_l in Hks. unfold owns. simpl.
    split_and!; try done; heap_lookup. rewrite Hks. constructor.
Qed.

Lemma fit_param_iadd_run self o s names w :
  owns (heap w) self o [] s -> o_lin_name o <> o_fit_param o ->
  exists w', fit_param_iadd self names w = Ok tt w'
             /\ owns (heap w') self o [] (fit_param_iadd_state names s).
Proof.
  intros (Hself & Hcov & Hln & HlM & Hlp & Hfp & Hd & Hks & Ht & Hy & Hc & Hs) Hne.
  eexists. split.
  - apply wp_exact. unfold fit_param_iadd.
    rewrite wp_bind, wp_load_model. simpl. rewrite Hself.
    rewrite wp_bind, wp_load_names. simpl. rewrite Hfp.
    rewrite wp_store. simpl. rewrite Hfp.
    apply conj; reflexivity.
  - apply Forall2_nil_inv_l in Hks. unfold owns. simpl.
    split_and!; try done; heap_lookup. rewrite Hks. constructor.
Qed.

Lemma fit_run self o s w :
  owns (heap w) self o [] s ->
  exists w', fit self w = Ok tt w'
             /\ owns (heap w') self o [] (fit_state s).
Proof.
  intros Ho. pose proof Ho as Hst.
  assert (state_of self (heap w) = Some s) as Hso
    by (apply state_of_owns; eauto).
  destruct Ho as (Hself & Hcov & Hln & HlM & Hlp & Hfp & Hd & Hks & Ht & Hy & Hc & Hs).
  eexists. split.
  - apply wp_exact. unfold fit.
    rewrite wp_bind, wp_emit, wp_bind, (wp_snapshot_known _ s) by done.
    rewrite wp_bind, wp_load_model. simpl. rewrite Hself.
    rewrite wp_bind, wp_store. simpl. rewrite Hlp.
    rewrite wp_bind, wp_store. simpl. rewrite lookup_insert_ne, Hcov by congruence.
    rewrite wp_bind, wp_load_dict. simpl.
    rewrite !lookup_insert_ne, Hd by congruence.
    simpl. rewrite wp_ret_raw. apply conj; reflexivity.
  - unfold owns. simpl. split_and!; try done; heap_lookup.
Qed.

Lemma not_elem_of_strings (x : string) (l : list string) :
  forallb (fun y => negb (String.eqb x y)) l = true -> x ∉ l.
Proof.
  induction l as [|y l IH]; simpl; intros Hall Hin.
  - by apply elem_of_nil in Hin.
  - apply andb_true_iff in Hall as [Hy Hl].
    apply elem_of_cons in Hin as [->|Hin]; [|by apply IH].
    by rewrite String.eqb_refl in Hy.
Qed.

Lemma single_star_cell_run (df : DataFrame) w :
  exists self o w',
    single_star_cell df w = Ok self w'
    /\ owns (heap w') self o [] (single_star_state df)
    /\ o_lin_name o <> o_fit_param o.
Proof.
  unfold single_star_cell, single_star_state. cbv zeta.
  set (t := Py.np_scale (col relative_time_year df) year_to_day).
  destruct (AstrometricModel_run t (col centroidPosAl_mas df) (col cpsi_obs df)
              (col spsi_obs df) (col centroidPosAlError_mas df) 0.05%float w)
    as (self & o & w0 & Hr0 & _ & Ho0 & Hne).
  assert (length t = length df) as Ht.
  { unfold t, col, Py.np_scale. by rewrite !length_fmap. }
  edestruct (add_lin_run self o _ (col spsi_obs df) "ra" w0 Ho0 Hne)
    as (w1 & Hr1 & Ho1).
  { by apply not_elem_of_strings. }
  { simpl. unfold col. by rewrite length_fmap. }
  edestruct (add_lin_run self o _ (col cpsi_obs df) "dec" w1 Ho1 Hne)
    as (w2 & Hr2 & Ho2).
  { by apply not_elem_of_strings. }
  { simpl. unfold col. by rewrite length_fmap. }
  edestruct (add_lin_run self o _ (col parallaxFactorAlongScan df) "parallax"
               w2 Ho2 Hne) as (w3 & Hr3 & Ho3).
  { by apply not_elem_of_strings. }
  { simpl. unfold col. by rewrite length_fmap. }
  edestruct (add_lin_run self o _
               (Py.np_mul (col relative_time_year df) (col spsi_obs df))
               "mura" w3 Ho3 Hne) as (w4 & Hr4 & Ho4).
  { by apply not_elem_of_strings. }
  { simpl. unfold col, Py.np_mul.
    rewrite length_zip_with, !length_fmap. lia. }
  edestruct (add_lin_run self o _
               (Py.np_mul (col relative_time_year df) (col cpsi_obs df))
               "mudec" w4 Ho4 Hne) as (w5 & Hr5 & Ho5).
  { by apply not_elem_of_strings. }
  { simpl. unfold col, Py.np_mul.
    rewrite length_zip_with, !length_fmap. lia. }
  edestruct (fit_param_iadd_run self o _ ["cov.jit.sig"%string] w5 Ho5 Hne)
    as (w6 & Hr6 & Ho6).
  edestruct (fit_run self o _ w6 Ho6) as (w7 & Hr7 & Ho7).
  exists self, o, w7. split_and!; [ | exact Ho7 | exact Hne].
  rewrite (bind_Ok _ _ _ _ _ Hr0), (bind_Ok _ _ _ _ _ Hr1),
    (bind_Ok _ _ _ _ _ Hr2), (bind_Ok _ _ _ _ _ Hr3),
    (bind_Ok _ _ _ _ _ Hr4), (bind_Ok _ _ _ _ _ Hr5),
    (bind_Ok _ _ _ _ _ Hr6), (bind_Ok _ _ _ _ _ Hr7).
  reflexivity.
Qed.

End SingleStar.

(** C10.  The single-star cell always returns, and in the model it builds
    the basis vector under ['mura'] is, entry by entry, the epoch in years
    times the ['ra'] basis vector (sin psi), and the one under ['mudec'] is
    the epoch in years times the ['dec'] basis vector (cos psi), while the
    model's own time axis is the epoch in days: years times 365.25. *)
Theorem C10_proper_motion_basis `{Kepmodel} (df : DataFrame) (w : world) :
  exists single_star_model w' s,
    single_star_cell df w = Ok single_star_model w'
    /\ state_of single_star_model (heap w') = Some s
    /\ m_t s = Py.np_scale (col relative_time_year df) year_to_day
    /\ basis "ra" s = Some (col spsi_obs df)
    /\ basis "dec" s = Some (col cpsi_obs df)
    /\ basis "mura" s
       = Some (Py.np_mul (col relative_time_year df) (col spsi_obs df))
    /\ basis "mudec" s
       = Some (Py.np_mul (col relative_time_year df) (col cpsi_obs df))
    /\ forall i r, df !! i = Some r ->
         m_t s !! i = Some (relative_time_year r * 365.25)%float
         /\ Py.np_mul (col relative_time_year df) (col spsi_obs df) !! i
            = Some (relative_time_year r * spsi_obs r)%float
         /\ Py.np_mul (col relative_time_year df) (col cpsi_obs df) !! i
            = Some (relative_time_year r * cpsi_obs r)%float.
Proof.
  destruct (single_star_cell_run df w) as (self & o & w' & Hrun & Ho & _).
  exists self, w', (single_star_state df). split_and!.
  - exact Hrun.
  - apply state_of_owns. eauto.
  - reflexivity.
  - reflexivity.
  - reflexivity.
  - reflexivity.
  - reflexivity.
  - intros i r Hr. split_and!.
    + change (m_t (single_star_state df))
        with (Py.np_scale (col relative_time_year df) year_to_day).
      unfold Py.np_scale, col. by rewrite !list_lookup_fmap, Hr.
    + unfold Py.np_mul, col. rewrite lookup_zip_with, !list_lookup_fmap, Hr.
      reflexivity.
    + unfold Py.np_mul, col. rewrite lookup_zip_with, !list_lookup_fmap, Hr.
      reflexivity.
Qed.

(** ** Angular to linear semi-major axis *)

(** C7.  For a parallax above zero the conversion returns a0/parallax
    scaled to linear units; for a parallax of zero or below (and for a NaN)
    it reports Invalid Parameter and returns no value. *)
Theorem C7_angular_to_linear (unit a0_mas parallax_mas : float) :
  (PrimFloat.ltb 0 parallax_mas = true ->
   convert_from_angular_to_linear unit a0_mas parallax_mas
   = inr (a0_mas / parallax_mas * unit)%float)
  /\ (PrimFloat.leb parallax_mas 0 = true ->
      convert_from_angular_to_linear unit a0_mas parallax_mas
      = inl InvalidParameter)
  /\ (PrimFloat.is_nan parallax_mas = true ->
      convert_from_angular_to_linear unit a0_mas parallax_mas
      = inl InvalidParameter).
Proof.
  unfold convert_from_angular_to_linear.
  change (Py.float_of_int 0) with 0%float.
  split_and!.
  - by intros ->.
  - intros Hle. by rewrite (FloatOrder.leb_ltb _ _ Hle).
  - intros Hnan. destruct (PrimFloat.ltb 0 parallax_mas) eqn:Hlt; [|done].
    rewrite FloatAxioms.ltb_spec in Hlt.
    rewrite FloatOrder.is_nan_spec, negb_true_iff in Hnan.
    unfold SFltb, SFeqb, SFcompare in *.
    destruct (Prim2SF 0), (Prim2SF parallax_mas); try done;
      FloatOrder.sf_cases.
Qed.

(** ** The sample run *)

(** Without the copy the loop works on the fitted single-star model
    itself, which then gains the component. *)
Example sample_without_copy :
  nkep Sample.single_star_model (heap (Sample.before 0.0001)) = 0%nat
  /\ nkep Sample.single_star_model
          (heap (world_of (@detection_loop (Sample.numerics 0.0001)
                             Sample.single_star_model 1
                             (Sample.before 0.0001)))) = 1%nat.
Proof. split; vm_compute; reflexivity. Qed.

(** With the copy, as in the notebook, it is the copy that gains it. *)
Example sample_with_copy :
  exists model w',
    @keplerian_cell (Sample.numerics 0.0001) Sample.single_star_model
      (Sample.before 0.0001) = Ok model w'
    /\ nkep Sample.single_star_model (heap w') = 0%nat
    /\ nkep model (heap w') = 1%nat
    /\ state_of Sample.single_star_model (heap w')
       = Some (Sample.state 0.0001).
Proof. eexists _, _. split_and!; vm_compute; reflexivity. Qed.

(** The period the notebook computes for the first trial frequency is one
    unit in the last place above 50000. *)
Example first_period :
  P !! 0%nat = Some 50000.000000000007%float
  /\ nu !! 0%nat = Some nu0.
Proof. split; vm_compute; reflexivity. Qed.

(** * Further properties of the notebook *)

(** ** Dictionaries kept in step *)

Lemma dict_set_new {V} key (v : V) d :
  key ∉ d.*1 -> dict_set key v d = d ++ [(key, v)].
Proof.
  induction d as [|[k x] d IH]; simpl; intros Hin; [done|].
  rewrite decide_False.
  - f_equal. apply IH. intros Hk. apply Hin. by right.
  - intros ->. apply Hin. by left.
Qed.

Lemma dict_get_None {V} key (d : list (string * V)) :
  dict_get key d = None <-> key ∉ d.*1.
Proof.
  induction d as [|[k x] d IH]; simpl.
  - split; [intros _ Hin; by apply elem_of_nil in Hin | done].
  - case_decide; subst.
    + split; [done|]. intros Hin. exfalso. apply Hin. by left.
    + rewrite IH. split.
      * intros Hn Hin. apply elem_of_cons in Hin as [?|?]; [congruence|done].
      * intros Hn Hin. apply Hn. by right.
Qed.

Lemma dict_get_set {V} key (v : V) d : dict_get key (dict_set key v d) = Some v.
Proof.
  induction d as [|[k x] d IH]; simpl.
  - by rewrite decide_True.
  - case_decide; simpl; [by rewrite decide_True | by rewrite decide_False].
Qed.

Lemma dict_set_Forall2 {A B} (R : string * A -> string * B -> Prop)
    key (a : A) (b : B) d ks :
  (forall e ek, R e ek -> ek.1 = e.1) ->
  Forall2 R d ks -> R (key, a) (key, b) ->
  Forall2 R (dict_set key a d) (dict_set key b ks).
Proof.
  intros Hkey HR Hab. induction HR as [|[k x] [k' y] d ks Hxy HR IH]; simpl.
  - by constructor.
  - pose proof (Hkey _ _ Hxy) as Hk. simpl in Hk. subst k'.
    case_decide; subst; constructor; auto.
Qed.

Lemma dict_get_Forall2 {A B} (R : string * A -> string * B -> Prop)
    key (a : A) d ks :
  (forall e ek, R e ek -> ek.1 = e.1) ->
  Forall2 R d ks -> dict_get key d = Some a ->
  exists b, dict_get key ks = Some b /\ R (key, a) (key, b).
Proof.
  intros Hkey HR. induction HR as [|[k x] [k' y] d ks Hxy HR IH]; simpl; [done|].
  pose proof (Hkey _ _ Hxy) as Hk. simpl in Hk. subst k'.
  case_decide; subst; [|done]. intros [= ->]. eauto.
Qed.

Lemma dict_set_values_subseteq {V} key (v : V) d x :
  x ∈ (dict_set key v d).*2 -> x = v \/ x ∈ d.*2.
Proof.
  induction d as [|[k y] d IH]; simpl.
  - intros Hin. apply list_elem_of_singleton in Hin. by left.
  - case_decide; simpl; intros Hin; apply elem_of_cons in Hin as [->|Hin].
    + by left.
    + right. by right.
    + right. by left.
    + destruct (IH Hin) as [->|?]; [by left | right; by right].
Qed.

Lemma dict_set_NoDup {V} key (v : V) d :
  NoDup d.*2 -> v ∉ d.*2 -> NoDup (dict_set key v d).*2.
Proof.
  induction d as [|[k y] d IH]; simpl; intros Hnd Hv.
  - apply NoDup_singleton.
  - apply NoDup_cons in Hnd as [Hy Hnd]. case_decide; simpl.
    + apply NoDup_cons. split; [|done]. intros Hin. apply Hv. by right.
    + apply NoDup_cons. split.
      * intros Hin. apply dict_set_values_subseteq in Hin as [->|Hin]; [|done].
        apply Hv. by left.
      * apply IH; [done|]. intros Hin. apply Hv. by right.
Qed.

(** ** The methods on a model with components *)

Lemma cells_insert (h : gmap loc cell) l c d (ks : list (string * Keplerian)) :
  l ∉ d.*2 ->
  Forall2 (fun e ek => ek.1 = e.1 /\ h !! e.2 = Some (CKeplerian ek.2)) d ks ->
  Forall2 (fun e ek => ek.1 = e.1 /\ <[l := c]> h !! e.2 = Some (CKeplerian ek.2))
          d ks.
Proof.
  intros Hl HR. induction HR as [|e ek d ks [Hk Hc] HR IH]; [by constructor|].
  simpl in Hl. constructor.
  - split; [done|]. rewrite lookup_insert_ne; [done|].
    intros ->. apply Hl. by left.
  - apply IH. intros Hin. apply Hl. by right.
Qed.

Lemma cells_allocated (h : gmap loc cell) d (ks : list (string * Keplerian)) l :
  Forall2 (fun e ek => ek.1 = e.1 /\ h !! e.2 = Some (CKeplerian ek.2)) d ks ->
  l ∈ d.*2 -> exists k, h !! l = Some (CKeplerian k).
Proof.
  intros HR. induction HR as [|e ek d ks [Hk Hc] HR IH]; simpl; intros Hin.
  - by apply elem_of_nil in Hin.
  - apply elem_of_cons in Hin as [->|Hin]; eauto.
Qed.

Lemma cells_length (h : gmap loc cell) d (ks : list (string * Keplerian)) :
  Forall2 (fun e ek => ek.1 = e.1 /\ h !! e.2 = Some (CKeplerian ek.2)) d ks ->
  length d = length ks.
Proof. apply Forall2_length. Qed.

Section MethodsOnComponents.
Context `{Kepmodel}.

Lemma add_keplerian_from_period_owns self o d s period w :
  owns (heap w) self o d s -> separate o d ->
  exists kl w',
    add_keplerian_from_period self period w = Ok tt w'
    /\ heap w !! kl = None
    /\ trace w' = trace w ++ [CallAddKeplerianFromPeriod self period]
    /\ owns (heap w') self o (dict_set (pretty (length d)) kl d)
            (add_keplerian_state period s)
    /\ separate o (dict_set (pretty (length d)) kl d).
Proof.
  intros Ho [Hne Hnd]. pose proof Ho as Hst.
  assert (state_of self (heap w) = Some s) as Hso
    by (apply state_of_owns; eauto).
  destruct Ho as (Hself & Hcov & Hln & HlM & Hlp & Hfp & Hd & Hks & Ht & Hy & Hc & Hs).
  set (k := {| k_param := keplerian_default_param;
               k_par := keplerian_from_period s period |}).
  set (kl := fresh (dom (heap w))).
  set (name := pretty (length d)).
  assert (heap w !! kl = None) as Hkl.
  { apply not_elem_of_dom. apply is_fresh. }
  assert (kl ∉ d.*2) as Hkd.
  { intros Hin. destruct (cells_allocated _ _ _ _ Hks Hin) as [k0 Hk0]. congruence. }
  exists kl. eexists. split_and!.
  - apply wp_exact. unfold add_keplerian_from_period.
    rewrite wp_bind, wp_emit, wp_bind, (wp_snapshot_known _ s) by done.
    rewrite wp_bind, wp_load_model. simpl. rewrite Hself.
    rewrite wp_bind, wp_load_dict. simpl. rewrite Hd.
    rewrite wp_bind, wp_alloc. simpl. fold kl k name.
    rewrite wp_bind, wp_store. simpl.
    rewrite lookup_insert_ne, Hd by congruence.
    rewrite wp_bind, wp_load_names. simpl.
    rewrite !lookup_insert_ne, Hfp by congruence.
    rewrite wp_store. simpl. rewrite !lookup_insert_ne, Hfp by congruence.
    apply conj; reflexivity.
  - exact Hkl.
  - reflexivity.
  - unfold owns, add_keplerian_state. simpl.
    rewrite <- (cells_length _ _ _ Hks). fold name k.
    split_and!; try done;
      try (rewrite !lookup_insert_ne by congruence; assumption).
    + rewrite lookup_insert_eq. reflexivity.
    + rewrite lookup_insert_ne by congruence. rewrite lookup_insert_eq.
      reflexivity.
    + apply (dict_set_Forall2 _ name kl k).
      * by intros e ek [? _].
      * apply Forall2_impl with
          (P := fun e ek => ek.1 = e.1
                            /\ heap w !! e.2 = Some (CKeplerian ek.2));
          [exact Hks|].
        intros e ek [Hk1 Hk2]. split; [done|].
        rewrite !lookup_insert_ne by congruence. exact Hk2.
      * simpl. split; [done|].
        rewrite !lookup_insert_ne by congruence. apply lookup_insert_eq.
  - split; [exact Hne|]. by apply dict_set_NoDup.
Qed.

Lemma refit_cells_run (r : FitResult) d ks (h : gmap loc cell) tr :
  NoDup d.*2 ->
  Forall2 (fun e ek => ek.1 = e.1 /\ h !! e.2 = Some (CKeplerian ek.2)) d ks ->
  exists h',
    for_each d (fun '(label, l) =>
      k ← load_keplerian l;
      store l (CKeplerian {| k_param := k_param k;
                             k_par := fit_kep_par r label k |}))
      {| heap := h; trace := tr |}
    = Ok tt {| heap := h'; trace := tr |}
    /\ Forall2 (fun e ek => ek.1 = e.1 /\ h' !! e.2 = Some (CKeplerian ek.2))
               d (refit_keplerian r <$> ks)
    /\ (forall l, l ∉ d.*2 -> h' !! l = h !! l).
Proof.
  intros Hnd HR. revert h HR.
  induction ks as [|[label' k] ks IH] in d, Hnd |- *; intros h HR.
  - apply Forall2_nil_inv_r in HR as ->. exists h. split_and!; [done|constructor|done].
  - apply Forall2_cons_inv_r in HR as ([label l] & d' & [Hlab Hl] & HR & ->).
    simpl in Hlab, Hl, Hnd. subst label'.
    apply NoDup_cons in Hnd as [Hld Hnd].
    set (k' := CKeplerian {| k_param := k_param k;
                             k_par := fit_kep_par r label k |}).
    destruct (IH d' Hnd (<[l := k']> h)) as (h' & Hrun & HR' & Hframe).
    { by apply cells_insert. }
    exists h'. split_and!.
    + simpl. apply wp_exact. rewrite wp_bind_raw, wp_bind, wp_load_keplerian.
      simpl. rewrite Hl. rewrite wp_store. simpl. rewrite Hl.
      apply wp_exact. exact Hrun.
    + simpl. constructor; [|exact HR']. simpl. split; [done|].
      rewrite Hframe by done. apply lookup_insert_eq.
    + intros l0 Hl0. rewrite Hframe.
      * rewrite lookup_insert_ne; [done|]. intros ->. apply Hl0. by left.
      * intros Hin. apply Hl0. by right.
Qed.

Lemma fit_owns self o d s w :
  owns (heap w) self o d s -> separate o d ->
  exists w',
    fit self w = Ok tt w'
    /\ trace w' = trace w ++ [CallFit self]
    /\ owns (heap w') self o d (refit_state s).
Proof.
  intros Ho [Hne Hnd].
  assert (state_of self (heap w) = Some s) as Hso
    by (apply state_of_owns; eauto).
  destruct Ho as (Hself & Hcov & Hln & HlM & Hlp & Hfp & Hd & Hks & Ht & Hy & Hc & Hs).
  set (r := fit_solution s).
  set (h2 := <[o_cov o := CCov (m_cov_err s) (fit_jit_sig r)]>
               (<[o_lin_par o := CArray (fit_lin_par r)]> (heap w))).
  assert (Forall2 (fun e ek => ek.1 = e.1
                               /\ h2 !! e.2 = Some (CKeplerian ek.2))
                  d (m_keplerian s)) as Hks2.
  { eapply Forall2_impl; [exact Hks|]. intros e ek [Hk1 Hk2]. split; [done|].
    unfold h2. rewrite !lookup_insert_ne by congruence. exact Hk2. }
  destruct (refit_cells_run r d (m_keplerian s) h2
              (trace w ++ [CallFit self]) Hnd Hks2)
    as (h' & Hrun & HR' & Hframe).
  assert (forall l c, heap w !! l = Some c ->
                      (forall k, c <> CKeplerian k) ->
                      l ∉ d.*2) as Hout.
  { intros l c Hl Hc' Hin.
    destruct (cells_allocated _ _ _ _ Hks Hin) as [k0 Hk0].
    rewrite Hk0 in Hl. injection Hl as <-. by eapply Hc'. }
  exists {| heap := h'; trace := trace w ++ [CallFit self] |}. split_and!.
  - apply wp_exact. unfold fit.
    rewrite wp_bind, wp_emit, wp_bind, (wp_snapshot_known _ s) by done.
    rewrite wp_bind, wp_load_model. simpl. rewrite Hself.
    rewrite wp_bind, wp_store. simpl. rewrite Hlp.
    rewrite wp_bind, wp_store. simpl. rewrite lookup_insert_ne, Hcov by congruence.
    rewrite wp_bind, wp_load_dict. simpl.
    rewrite !lookup_insert_ne, Hd by congruence.
    apply wp_exact. exact Hrun.
  - reflexivity.
  - unfold owns, refit_state. simpl. fold r.
    split_and!; try done;
      try (rewrite Hframe by (eapply Hout; [eassumption|done]);
           unfold h2; heap_lookup).
Qed.

Lemma cells_set (h : gmap loc cell) name kl (k' : Keplerian) d ks :
  NoDup d.*2 -> dict_get name d = Some kl ->
  Forall2 (fun e ek => ek.1 = e.1 /\ h !! e.2 = Some (CKeplerian ek.2)) d ks ->
  Forall2 (fun e ek => ek.1 = e.1
                       /\ <[kl := CKeplerian k']> h !! e.2
                          = Some (CKeplerian ek.2))
          d (dict_set name k' ks).
Proof.
  intros Hnd Hget HR. revert Hnd Hget.
  induction HR as [|[k0 l0] [k0' y] d ks [Hk Hc] HR IH]; simpl; [done|].
  simpl in Hk, Hc. subst k0'. intros Hnd Hget.
  apply NoDup_cons in Hnd as [Hl0 Hnd]. case_decide.
  - injection Hget as ->. constructor.
    + simpl. split; [done|]. apply lookup_insert_eq.
    + by apply cells_insert.
  - constructor.
    + simpl. split; [done|]. rewrite lookup_insert_ne; [done|].
      intros ->. apply Hl0. by eapply dict_get_values.
    + by apply IH.
Qed.

Lemma set_keplerian_param_owns self o d s name ps kl w :
  owns (heap w) self o d s -> separate o d -> dict_get name d = Some kl ->
  exists k w',
    dict_get name (m_keplerian s) = Some k
    /\ set_keplerian_param self name ps w = Ok tt w'
    /\ trace w' = trace w ++ [CallSetKeplerianParam self name ps]
    /\ owns (heap w') self o d (set_keplerian_param_state name ps k s).
Proof.
  intros Ho [Hne Hnd] Hget.
  destruct Ho as (Hself & Hcov & Hln & HlM & Hlp & Hfp & Hd & Hks & Ht & Hy & Hc & Hs).
  destruct (dict_get_Forall2 _ name kl d (m_keplerian s)
              (fun e ek (HR : ek.1 = e.1 /\ _) => proj1 HR) Hks Hget)
    as (k & Hgetk & _ & Hkl).
  simpl in Hkl. exists k. eexists. split_and!.
  - exact Hgetk.
  - apply wp_exact. unfold set_keplerian_param.
    rewrite wp_bind, wp_emit, wp_bind, wp_load_model. simpl. rewrite Hself.
    rewrite wp_bind, wp_load_dict. simpl. rewrite Hd.
    rewrite wp_bind, wp_of_option, Hget.
    rewrite wp_bind, wp_load_keplerian. simpl. rewrite Hkl.
    rewrite wp_bind, wp_store. simpl. rewrite Hkl.
    rewrite wp_bind, wp_load_names. simpl.
    rewrite lookup_insert_ne, Hfp by congruence.
    rewrite wp_store. simpl. rewrite lookup_insert_ne, Hfp by congruence.
    apply conj; reflexivity.
  - reflexivity.
  - unfold owns, set_keplerian_param_state. simpl.
    split_and!; try done;
      try (rewrite !lookup_insert_ne by congruence; assumption).
    + apply lookup_insert_eq.
    + eapply Forall2_impl.
      * apply (cells_set (heap w) name kl
                 {| k_param := ps; k_par := convert_par k ps |} d
                 (m_keplerian s) Hnd Hget Hks).
      * intros e ek [Hk1 Hk2]. split; [done|].
        rewrite lookup_insert_ne; [exact Hk2|].
        intros Heq. rewrite <- Heq in Hk2.
        destruct (decide (o_fit_param o = kl)) as [Hq|Hq].
        -- rewrite Hq in Hfp. congruence.
        -- rewrite lookup_insert_ne in Hk2 by done. congruence.
Qed.

End MethodsOnComponents.

(** ** The copy *)

Lemma wp_run {A} (m : M A) Q E w a w' :
  m w = Ok a w' -> wp m Q E w <-> Q a w'.
Proof. unfold wp. by intros ->. Qed.

Lemma put_fresh_subseteq (h : gmap loc cell) c : h ⊆ <[fresh (dom h) := c]> h.
Proof. apply insert_subseteq. apply not_elem_of_dom. apply is_fresh. Qed.

Lemma cells_mono (h h' : gmap loc cell) d (ks : list (string * Keplerian)) :
  h ⊆ h' ->
  Forall2 (fun e ek => ek.1 = e.1 /\ h !! e.2 = Some (CKeplerian ek.2)) d ks ->
  Forall2 (fun e ek => ek.1 = e.1 /\ h' !! e.2 = Some (CKeplerian ek.2)) d ks.
Proof.
  intros Hsub HR. eapply Forall2_impl; [exact HR|]. intros e ek [? Hc].
  split; [done|]. by eapply lookup_weaken.
Qed.

Lemma copy_cells_run (d : list (string * loc)) (ks : list (string * Keplerian))
    (h : gmap loc cell) tr :
  Forall2 (fun e ek => ek.1 = e.1 /\ h !! e.2 = Some (CKeplerian ek.2)) d ks ->
  exists d' h',
    collect (fun '(label, l) =>
               k ← load_keplerian l; l' ← alloc (CKeplerian k); mret (label, l'))
            d {| heap := h; trace := tr |}
    = Ok d' {| heap := h'; trace := tr |}
    /\ h ⊆ h'
    /\ Forall2 (fun e ek => ek.1 = e.1 /\ h' !! e.2 = Some (CKeplerian ek.2)) d' ks
    /\ Forall (fun l => h !! l = None) d'.*2
    /\ NoDup d'.*2
    /\ d'.*1 = d.*1.
Proof.
  intros HR. revert h HR.
  induction ks as [|[label' k] ks IH] in d |- *; intros h HR.
  - apply Forall2_nil_inv_r in HR as ->. exists [], h.
    split_and!; try done; constructor.
  - apply Forall2_cons_inv_r in HR as ([label l] & d0 & [Hlab Hl] & HR & ->).
    simpl in Hlab, Hl. subst label'.
    set (l' := fresh (dom h)). set (h1 := <[l' := CKeplerian k]> h).
    assert (h ⊆ h1) as Hsub1 by apply put_fresh_subseteq.
    assert (h !! l' = None) as Hl'.
    { apply not_elem_of_dom. apply is_fresh. }
    destruct (IH d0 h1) as (d' & h' & Hrun & Hsub & HR' & Hnew & Hnd & Hfst).
    { by eapply cells_mono. }
    exists ((label, l') :: d'), h'. split_and!.
    + simpl. apply wp_exact.
      rewrite wp_bind_raw, wp_bind, wp_load_keplerian. simpl. rewrite Hl.
      rewrite wp_bind, wp_alloc, wp_ret. unfold put. simpl. fold l' h1.
      rewrite wp_bind_raw. rewrite (wp_run _ _ _ _ _ _ Hrun).
      by rewrite wp_ret_raw.
    + by etrans.
    + constructor; [|exact HR']. simpl. split; [done|].
      eapply lookup_weaken; [|exact Hsub]. apply lookup_insert_eq.
    + simpl. constructor; [exact Hl'|].
      eapply Forall_impl; [exact Hnew|]. intros x Hx. simpl in Hx.
      destruct (h !! x) eqn:Hhx; [|done].
      eapply lookup_weaken in Hhx; [|exact Hsub1]. congruence.
    + simpl. apply NoDup_cons. split; [|exact Hnd].
      intros Hin. apply (proj1 (Forall_forall _ _) Hnew) in Hin.
      unfold h1 in Hin. by rewrite lookup_insert_eq in Hin.
    + rewrite !fmap_cons. simpl. f_equal. exact Hfst.
Qed.

Lemma deepcopy_owns self o d s w :
  owns (heap w) self o d s ->
  exists model o' d' w',
    deepcopy self w = Ok model w'
    /\ trace w' = trace w
    /\ heap w ⊆ heap w'
    /\ heap w !! model = None
    /\ owns (heap w') model o' d' s
    /\ separate o' d'
    /\ d'.*1 = d.*1.
Proof.
  intros (Hself & Hcov & Hln & HlM & Hlp & Hfp & Hd & Hks & Ht & Hy & Hc & Hs).
  set (h0 := heap w) in *.
  set (l1 := fresh (dom h0)).
  set (h1 := <[l1 := CCov (m_cov_err s) (m_cov_jit_sig s)]> h0).
  set (l2 := fresh (dom h1)). set (h2 := <[l2 := CNames (m_lin_name s)]> h1).
  set (l3 := fresh (dom h2)). set (h3 := <[l3 := CMatrix (m_lin_M s)]> h2).
  set (l4 := fresh (dom h3)). set (h4 := <[l4 := CArray (m_lin_par s)]> h3).
  set (l5 := fresh (dom h4)). set (h5 := <[l5 := CNames (m_fit_param s)]> h4).
  assert (h0 ⊆ h1) as S1 by apply put_fresh_subseteq.
  assert (h1 ⊆ h2) as S2 by apply put_fresh_subseteq.
  assert (h2 ⊆ h3) as S3 by apply put_fresh_subseteq.
  assert (h3 ⊆ h4) as S4 by apply put_fresh_subseteq.
  assert (h4 ⊆ h5) as S5 by apply put_fresh_subseteq.
  assert (h0 ⊆ h2) as S02 by (etrans; [exact S1|exact S2]).
  assert (h0 ⊆ h3) as S03 by (etrans; [exact S02|exact S3]).
  assert (h0 ⊆ h4) as S04 by (etrans; [exact S03|exact S4]).
  assert (h0 ⊆ h5) as S05 by (etrans; [exact S04|exact S5]).
  destruct (copy_cells_run d (m_keplerian s) h5 (trace w))
    as (d' & h6 & Hrun & S6 & HR' & Hnew & Hnd & Hfst).
  { by eapply cells_mono. }
  set (l7 := fresh (dom h6)). set (h7 := <[l7 := CDict d']> h6).
  set (l8 := fresh (dom h7)).
  set (o' := {| o_t := o_t o; o_y := o_y o; o_cpsi := o_cpsi o;
                o_spsi := o_spsi o; o_cov := l1; o_lin_name := l2;
                o_lin_M := l3; o_lin_par := l4; o_fit_param := l5;
                o_keplerian := l7 |}).
  set (h8 := <[l8 := CModel o']> h7).
  assert (h6 ⊆ h7) as S7 by apply put_fresh_subseteq.
  assert (h7 ⊆ h8) as S8 by apply put_fresh_subseteq.
  assert (h6 ⊆ h8) as S68 by (etrans; [exact S7|exact S8]).
  assert (h5 ⊆ h8) as S58 by (etrans; [exact S6|exact S68]).
  assert (h4 ⊆ h8) as S48 by (etrans; [exact S5|exact S58]).
  assert (h3 ⊆ h8) as S38 by (etrans; [exact S4|exact S48]).
  assert (h2 ⊆ h8) as S28 by (etrans; [exact S3|exact S38]).
  assert (h1 ⊆ h8) as S18 by (etrans; [exact S2|exact S28]).
  assert (h0 ⊆ h8) as S08 by (etrans; [exact S1|exact S18]).
  exists l8, o', d', {| heap := h8; trace := trace w |}. split_and!.
  - apply wp_exact. unfold deepcopy.
    rewrite wp_bind, wp_load_model. fold h0. rewrite Hself.
    rewrite wp_bind, wp_load_cov. fold h0. rewrite Hcov.
    rewrite wp_bind, wp_alloc. unfold put. simpl. fold h0 l1 h1.
    rewrite wp_bind, wp_load_names. simpl.
    rewrite (lookup_weaken _ _ _ _ Hln S1).
    rewrite wp_bind, wp_alloc. unfold put. simpl. fold l2 h2.
    rewrite wp_bind, wp_load_matrix. simpl.
    rewrite (lookup_weaken h0 h2 _ _ HlM S02).
    rewrite wp_bind, wp_alloc. unfold put. simpl. fold l3 h3.
    rewrite wp_bind, wp_load_array. simpl.
    rewrite (lookup_weaken h0 h3 _ _ Hlp S03).
    rewrite wp_bind, wp_alloc. unfold put. simpl. fold l4 h4.
    rewrite wp_bind, wp_load_names. simpl.
    rewrite (lookup_weaken h0 h4 _ _ Hfp S04).
    rewrite wp_bind, wp_alloc. unfold put. simpl. fold l5 h5.
    rewrite wp_bind, wp_load_dict. simpl.
    rewrite (lookup_weaken h0 h5 _ _ Hd S05).
    rewrite wp_bind, (wp_run _ _ _ _ _ _ Hrun).
    rewrite wp_bind, wp_alloc. unfold put. simpl. fold l7 h7.
    rewrite wp_alloc. unfold put. simpl. fold l8 o' h8.
    apply conj; reflexivity.
  - reflexivity.
  - exact S08.
  - simpl. fold h0. destruct (h0 !! l8) eqn:Hl8; [|done].
    eapply lookup_weaken in Hl8; [|etrans; [exact S05|]; etrans; [exact S6|exact S7]].
    exfalso. apply (is_fresh (dom h7)). apply elem_of_dom. eauto.
  - unfold owns. simpl. split_and!; try done.
    + apply lookup_insert_eq.
    + eapply lookup_weaken; [apply lookup_insert_eq|exact S18].
    + eapply lookup_weaken; [apply lookup_insert_eq|exact S28].
    + eapply lookup_weaken; [apply lookup_insert_eq|exact S38].
    + eapply lookup_weaken; [apply lookup_insert_eq|exact S48].
    + eapply lookup_weaken; [apply lookup_insert_eq|exact S58].
    + eapply lookup_weaken; [apply lookup_insert_eq|exact S8].
    + eapply cells_mono; [exact S68|exact HR'].
  - split; [|exact Hnd]. simpl. intros Heq.
    assert (h4 !! l2 = Some (CNames (m_lin_name s))) as H42.
    { eapply lookup_weaken; [apply lookup_insert_eq|]. etrans; [exact S3|exact S4]. }
    apply (is_fresh (dom h4)). fold l5. rewrite <- Heq.
    apply elem_of_dom. eauto.
  - exact Hfst.
Qed.

(** ** The loop, iteration by iteration *)

Lemma pretty_fresh_label (n : nat) : pretty n ∉ (pretty <$> seq 0 n : list string).
Proof.
  intros Hin. apply list_elem_of_fmap in Hin as (i & Heq & Hi).
  apply (inj pretty) in Heq. subst i. apply elem_of_seq in Hi. lia.
Qed.

Section LoopRuns.
Context `{Kepmodel}.

Lemma detection_iteration_owns model o d s w :
  owns (heap w) model o d s -> separate o d ->
  d.*1 = pretty <$> seq 0 (length d) ->
  exists f period,
    faplvl s = Some f
    /\ kmax s ≫= (P !!.) = Some period
    /\ (Py.gt f fap_threshold = true ->
        detection_iteration model (length d) w
        = Ok Break {| heap := heap w;
                      trace := trace w ++ search_calls model s |})
    /\ (Py.gt f fap_threshold = false ->
        exists kl w',
          detection_iteration model (length d) w = Ok Next w'
          /\ heap w !! kl = None
          /\ owns (heap w') model o (d ++ [(pretty (length d), kl)])
                  (accept_state (length d) period s)
          /\ separate o (d ++ [(pretty (length d), kl)])
          /\ trace w'
             = trace w ++ search_calls model s
               ++ [CallAddKeplerianFromPeriod model period;
                   CallFit model;
                   CallSetKeplerianParam model (pretty (length d)) param]).
Proof.
  intros Ho Hsep Hlab.
  assert (state_of model (heap w) = Some s) as Hs
    by (apply state_of_owns; eauto).
  destruct (iteration_values s)
    as (k & nustar & peak & numax & Hk & Hnk & Hpk & Hnm & HP & Hf & _).
  exists (fap_of s peak numax), (2 * Py.np_pi / nustar)%float.
  pose proof (detection_iteration_run model (length d) s w k peak numax _
                Hs Hk Hpk Hnm HP) as Hrun. cbv zeta in Hrun.
  rewrite (search_calls_eq model s k peak numax) by done.
  split_and!.
  - exact Hf.
  - rewrite Hk. exact HP.
  - intros Hgt. by rewrite Hrun, Hgt.
  - intros Hgt. rewrite Hrun, Hgt. clear Hrun.
    set (w1 := {| heap := heap w; trace := _ |}).
    set (name := pretty (length d)).
    destruct (add_keplerian_from_period_owns model o d s
                (2 * Py.np_pi / nustar)%float w1 Ho Hsep)
      as (kl & w2 & Hr2 & Hkl & Ht2 & Ho2 & Hsep2).
    fold name in Ho2, Hsep2.
    assert (dict_set name kl d = d ++ [(name, kl)]) as Hd1.
    { apply dict_set_new. rewrite Hlab. apply pretty_fresh_label. }
    rewrite Hd1 in Ho2, Hsep2.
    destruct (fit_owns model o _ _ w2 Ho2 Hsep2) as (w3 & Hr3 & Ht3 & Ho3).
    destruct (set_keplerian_param_owns model o _ _ name param kl w3 Ho3 Hsep2)
      as (k0 & w4 & Hget & Hr4 & Ht4 & Ho4).
    { rewrite <- Hd1. apply dict_get_set. }
    exists kl, w4. split_and!.
    + rewrite (bind_Ok _ _ _ _ _ Hr2), (bind_Ok _ _ _ _ _ Hr3),
        (bind_Ok _ _ _ _ _ Hr4). reflexivity.
    + exact Hkl.
    + unfold accept_state. fold name. rewrite Hget. exact Ho4.
    + exact Hsep2.
    + rewrite Ht4, Ht3, Ht2. unfold w1. simpl. rewrite <- !app_assoc. reflexivity.
Qed.


Lemma loop_state_nil s : loop_state [] s = s.
Proof. reflexivity. Qed.

Lemma loop_state_cons kpla kplas s :
  loop_state (kpla :: kplas) s
  = match faplvl s, kmax s ≫= (P !!.) with
    | Some f, Some period =>
        if Py.gt f fap_threshold then s
        else loop_state kplas (accept_state kpla period s)
    | _, _ => s
    end.
Proof. reflexivity. Qed.

Lemma for_range_cons k ks (body : nat -> M flow) w :
  for_range (k :: ks) body w
  = match body k w with
    | Ok Next w' => for_range ks body w'
    | Ok Break w' => Ok tt w'
    | Raise e w' => Raise e w'
    end.
Proof.
  change (for_range (k :: ks) body w)
    with (bind (body k) (fun f => match f with
                                  | Break => ret tt
                                  | Next => for_range ks body
                                  end) w).
  unfold bind. destruct (body k w) as [[] ?|]; reflexivity.
Qed.

Lemma for_range_owns model o n : forall d s w,
  owns (heap w) model o d s -> separate o d ->
  d.*1 = pretty <$> seq 0 (length d) ->
  exists d' w',
    for_range (seq (length d) n) (detection_iteration model) w = Ok tt w'
    /\ owns (heap w') model o d' (loop_state (seq (length d) n) s)
    /\ separate o d'
    /\ d'.*1 = pretty <$> seq 0 (length d')
    /\ (length d <= length d' <= length d + n)%nat.
Proof.
  induction n as [|n IH]; intros d s w Ho Hsep Hlab.
  - exists d, w. split_and!; try exact Ho; try exact Hsep; try exact Hlab;
      try reflexivity; lia.
  - change (seq (length d) (S n)) with (length d :: seq (S (length d)) n).
    rewrite for_range_cons, loop_state_cons.
    destruct (detection_iteration_owns model o d s w Ho Hsep Hlab)
      as (f & period & Hf & Hp & Hstop & Hgo).
    rewrite Hf, Hp.
    destruct (Py.gt f fap_threshold) eqn:Hgt.
    + rewrite (Hstop eq_refl).
      eexists d, _. split_and!; [reflexivity|exact Ho|exact Hsep|exact Hlab|lia|lia].
    + destruct (Hgo eq_refl) as (kl & w1 & Hr & _ & Ho1 & Hsep1 & _).
      rewrite Hr.
      set (d1 := d ++ [(pretty (length d), kl)]) in *.
      assert (length d1 = S (length d)) as Hlen
        by (unfold d1; rewrite length_app; simpl; lia).
      assert (d1.*1 = pretty <$> seq 0 (length d1)) as Hlab1.
      { rewrite Hlen, seq_S, fmap_app. unfold d1. rewrite fmap_app, Hlab.
        reflexivity. }
      destruct (IH d1 _ w1 Ho1 Hsep1 Hlab1) as (d' & w' & Hr' & Ho' & Hsep' & Hlab' & Hle).
      rewrite Hlen in Hr', Ho', Hle.
      exists d', w'. split_and!; [exact Hr'|exact Ho'|exact Hsep'|exact Hlab'|lia|lia].
Qed.

End LoopRuns.

(** ** Reading the fitted parameters into dictionaries *)

Lemma getitem_inr {V} (d : list (string * V)) key v :
  getitem d key = inr v <-> dict_get key d = Some v.
Proof.
  unfold getitem. destruct (dict_get key d); split; intros Heq;
    by inversion Heq.
Qed.

Lemma getitem_inl {V} (d : list (string * V)) key e :
  getitem d key = inl e <-> e = KeyErr key /\ key ∉ d.*1.
Proof.
  unfold getitem. destruct (dict_get key d) eqn:Hget.
  - split; [done|]. intros [_ Hnot]. apply dict_get_None in Hnot. congruence.
  - apply dict_get_None in Hget. split.
    + intros [= <-]. done.
    + intros [-> _]. done.
Qed.

Lemma dict_set_keys {V} key (v : V) d x :
  x ∈ (dict_set key v d).*1 <-> x = key \/ x ∈ d.*1.
Proof.
  induction d as [|[k v'] d IH]; simpl.
  - rewrite list_elem_of_singleton, elem_of_nil. tauto.
  - destruct (decide (k = key)) as [->|Hne]; simpl.
    + rewrite !elem_of_cons. tauto.
    + rewrite !elem_of_cons, IH. tauto.
Qed.

Lemma enumerate_into_length keys : forall d i values,
  match enumerate_into d i keys values with
  | inr _ => keys = [] \/ (i + length keys <= length values)%nat
  | inl e => e = IndexErr /\ (length values < i + length keys)%nat
  end.
Proof.
  induction keys as [|key keys IH]; intros d i values; simpl; [by left|].
  destruct (values !! i) as [v|] eqn:Hv.
  - specialize (IH (dict_set key v d) (S i) values).
    apply lookup_lt_Some in Hv.
    destruct (enumerate_into _ _ _ _).
    + destruct IH. split; [done|lia].
    + right. destruct IH as [->|]; simpl; lia.
  - apply lookup_ge_None in Hv. split; [done|lia].
Qed.

Lemma enumerate_into_length_0 keys d values :
  match enumerate_into d 0 keys values with
  | inr _ => (length keys <= length values)%nat
  | inl e => e = IndexErr /\ (length values < length keys)%nat
  end.
Proof.
  pose proof (enumerate_into_length keys d 0 values) as Hlen.
  destruct (enumerate_into d 0 keys values); [exact Hlen|].
  destruct Hlen as [->|]; simpl in *; lia.
Qed.

Lemma enumerate_into_keys keys : forall d i values d',
  enumerate_into d i keys values = inr d' ->
  forall x, x ∈ d'.*1 <-> x ∈ d.*1 \/ x ∈ keys.
Proof.
  induction keys as [|key keys IH]; intros d i values d'; simpl.
  - intros [= <-] x. rewrite elem_of_nil. tauto.
  - destruct (values !! i) as [v|]; [|done]. intros Hrun x.
    rewrite (IH _ _ _ _ Hrun), dict_set_keys, elem_of_cons. tauto.
Qed.

Lemma enumerate_into_append keys : forall d i values,
  NoDup keys -> (forall key, key ∈ keys -> key ∉ d.*1) ->
  (i + length keys <= length values)%nat ->
  enumerate_into d i keys values = inr (d ++ zip keys (drop i values)).
Proof.
  induction keys as [|key keys IH]; intros d i values Hnd Hnew Hlen; simpl.
  - by rewrite app_nil_r.
  - simpl in Hlen. destruct (lookup_lt_is_Some_2 values i) as [v Hv]; [lia|].
    rewrite Hv, (drop_S _ _ _ Hv). simpl.
    apply NoDup_cons in Hnd as [Hkey Hnd].
    rewrite dict_set_new by (apply Hnew; left).
    rewrite IH; [by rewrite <- app_assoc|exact Hnd| |lia].
    intros key' Hin. rewrite fmap_app, elem_of_app. simpl.
    intros [Hd|Hk%list_elem_of_singleton].
    + apply (Hnew key'); [by right|exact Hd].
    + subst key'. done.
Qed.

(** X1.  The loop [for i, key in enumerate(keys): d[key] = values[i]] on
    an empty dictionary, when the keys are distinct and there is a value
    for each: the dictionary pairs every key with the value at its
    position, in the order of the keys, and values beyond the last key are
    left out. *)
Theorem enumerate_into_zip (keys : list string) (values : list float) :
  NoDup keys -> (length keys <= length values)%nat ->
  enumerate_into [] 0 keys values = inr (zip keys values)
  /\ forall i key, keys !! i = Some key ->
       (getitem (zip keys values) key : pyerr + float)
       = match values !! i with Some v => inr v | None => inl IndexErr end.
Proof.
  intros Hnd Hlen. split.
  - rewrite enumerate_into_append; [reflexivity|exact Hnd| |simpl; lia].
    intros key _. simpl. apply not_elem_of_nil.
  - intros i key Hkey.
    destruct (lookup_lt_is_Some_2 values i) as [v Hv].
    { apply lookup_lt_Some in Hkey. lia. }
    rewrite Hv. apply getitem_inr.
    clear Hlen. revert i values v Hkey Hv.
    induction Hnd as [|k keys Hk Hnd IH]; intros i values v Hkey Hv; [done|].
    destruct values as [|v0 values]; [done|]. simpl.
    destruct i as [|i]; simpl in *.
    + injection Hkey as ->. injection Hv as ->. by rewrite decide_True.
    + rewrite decide_False.
      * by apply (IH i).
      * intros ->. apply Hk. by eapply list_elem_of_lookup_2.
Qed.

Lemma enumerate_into_zip_witness :
  enumerate_into [] 0 ["P"; "e"]%string [3%float; 0.5%float; 7%float]
  = inr (zip ["P"; "e"]%string [3%float; 0.5%float; 7%float]).
Proof.
  apply (enumerate_into_zip ["P"; "e"]%string [3%float; 0.5%float; 7%float]).
  - apply (bool_decide_unpack (NoDup _)). vm_compute. reflexivity.
  - simpl. lia.
Defined.

(** X2.  The loop [for i, key in enumerate(keys): d[key] = values[i]]
    raises exactly when there are fewer values than keys, and then it is
    IndexError; it never raises KeyError.  When it returns, the keys of the
    dictionary are those it had and those of the list. *)
Theorem enumerate_into_raises (d : list (string * float))
    (keys : list string) (values : list float) :
  (enumerate_into d 0 keys values = inl IndexErr
   <-> (length values < length keys)%nat)
  /\ (forall e, enumerate_into d 0 keys values = inl e -> e = IndexErr)
  /\ (forall d', enumerate_into d 0 keys values = inr d' ->
        forall x, x ∈ d'.*1 <-> x ∈ d.*1 \/ x ∈ keys).
Proof.
  pose proof (enumerate_into_length_0 keys d values) as Hlen.
  split_and!.
  - destruct (enumerate_into d 0 keys values) as [e|d'].
    + destruct Hlen as [-> Hlt]. split; [intros _; lia|done].
    + split; [done|]. simpl in Hlen. lia.
  - intros e He. rewrite He in Hlen. by destruct Hlen.
  - apply enumerate_into_keys.
Qed.

(** X3.  The cell that reads the fitted parameters, on a model of state
    [s].  It raises KeyError, with key ['0'], exactly when the model has no
    component named ['0'].  Otherwise it raises IndexError exactly when that
    component, or the linear part, has fewer values than names.  Otherwise
    it returns, and the keys of the two dictionaries are the parameter names
    of the component and the names of the regressors. *)
Theorem parameter_cell_outcomes (s : AstroModel) :
  match parameter_cell s with
  | inl (KeyErr key) => key = "0"%string /\ "0"%string ∉ (m_keplerian s).*1
  | inl IndexErr =>
      exists k, dict_get "0" (m_keplerian s) = Some k
                /\ ((length (k_par k) < length (k_param k))%nat
                    \/ (length (m_lin_par s) < length (m_lin_name s))%nat)
  | inr (linear_parameters, keplerian_parameters) =>
      exists k, dict_get "0" (m_keplerian s) = Some k
                /\ (length (k_param k) <= length (k_par k))%nat
                /\ (length (m_lin_name s) <= length (m_lin_par s))%nat
                /\ (forall x, x ∈ keplerian_parameters.*1 <-> x ∈ k_param k)
                /\ (forall x, x ∈ linear_parameters.*1 <-> x ∈ m_lin_name s)
  end.
Proof.
  unfold parameter_cell.
  destruct (getitem (m_keplerian s) "0") as [e|k] eqn:Hget.
  - apply getitem_inl in Hget as [-> Hnot]. done.
  - apply getitem_inr in Hget.
    pose proof (enumerate_into_length_0 (k_param k) [] (k_par k)) as Hk.
    pose proof (enumerate_into_keys (k_param k) [] 0 (k_par k)) as Hkk.
    destruct (enumerate_into [] 0 (k_param k) (k_par k)) as [e|kp].
    { destruct Hk as [-> Hlt]. exists k. split; [done|]. left. simpl in Hlt. lia. }
    pose proof (enumerate_into_length_0 (m_lin_name s) [] (m_lin_par s)) as Hl.
    pose proof (enumerate_into_keys (m_lin_name s) [] 0 (m_lin_par s)) as Hlk.
    destruct (enumerate_into [] 0 (m_lin_name s) (m_lin_par s)) as [e|lp].
    { destruct Hl as [-> Hlt]. exists k. split; [done|]. right. simpl in Hlt. lia. }
    exists k. simpl in Hk, Hl. split_and!; [done|lia|lia| |].
    + intros x. rewrite (Hkk kp eq_refl x). simpl. rewrite elem_of_nil. tauto.
    + intros x. rewrite (Hlk lp eq_refl x). simpl. rewrite elem_of_nil. tauto.
Qed.

(** ** The table of attributes *)

Section LastCellFacts.
Context `{Pystrometry}.

Ltac key_in :=
  unfold linear_keys, keplerian_keys; rewrite !elem_of_cons; tauto.

Ltac read_key d key v Hv :=
  destruct (getitem d key) as [?e|v] eqn:Hv;
  [ apply getitem_inl in Hv as [-> Hv]; simpl; exists key;
    split; [reflexivity|]; first [left; split; [key_in|exact Hv]
                                 |right; split; [key_in|exact Hv]]
  | apply getitem_inr in Hv ].

Lemma attribute_cell_cases (c : Catalog) (lp kp : list (string * float)) :
  match attribute_cell c lp kp with
  | inl e =>
      exists key, e = KeyErr key
                  /\ ((key ∈ linear_keys /\ key ∉ lp.*1)
                      \/ (key ∈ keplerian_keys /\ key ∉ kp.*1))
  | inr ad =>
      ad = attribute_table c lp kp
      /\ (forall key, key ∈ linear_keys -> key ∈ lp.*1)
      /\ (forall key, key ∈ keplerian_keys -> key ∈ kp.*1)
  end.
Proof.
  unfold attribute_cell, get_then.
  read_key lp "parallax"%string plx Hplx.
  read_key lp "mura"%string mura Hmura.
  read_key lp "mudec"%string mudec Hmudec.
  read_key kp "as"%string a_s Has.
  read_key kp "P"%string period HP.
  read_key kp "w"%string om Hw.
  read_key kp "e"%string ecc He.
  read_key kp "bigw"%string bigw Hbigw.
  read_key kp "i"%string inc Hi.
  read_key kp "Tp"%string tp HTp.
  read_key lp "ra"%string ra Hra.
  read_key lp "dec"%string dec Hdec.
  split_and!.
  - unfold attribute_table, companion_mass, value_of.
    rewrite Hplx, Hmura, Hmudec, Has, HP, Hw, He, Hbigw, Hi, HTp, Hra, Hdec.
    reflexivity.
  - intros key Hin. unfold linear_keys in Hin.
    rewrite !elem_of_cons, elem_of_nil in Hin.
    destruct Hin as [->|[->|[->|[->|[->|[]]]]]];
      apply dec_stable; intros Hnot; apply dict_get_None in Hnot; congruence.
  - intros key Hin. unfold keplerian_keys in Hin.
    rewrite !elem_of_cons, elem_of_nil in Hin.
    destruct Hin as [->|[->|[->|[->|[->|[->|[->|[]]]]]]]];
      apply dec_stable; intros Hnot; apply dict_get_None in Hnot; congruence.
Qed.

End LastCellFacts.

(** X4.  The cell that fills the table of attributes returns exactly when
    [linear_parameters] has the keys parallax, mura, mudec, ra, dec and
    [keplerian_parameters] has the keys as, P, w, e, bigw, i, Tp.  When it
    raises, it is KeyError, on one of these keys that its dictionary
    lacks. *)
Theorem attribute_cell_returns_iff `{Pystrometry} (c : Catalog)
    (lp kp : list (string * float)) :
  ((exists ad, attribute_cell c lp kp = inr ad)
   <-> (forall key, key ∈ linear_keys -> key ∈ lp.*1)
       /\ (forall key, key ∈ keplerian_keys -> key ∈ kp.*1))
  /\ (forall e, attribute_cell c lp kp = inl e ->
        exists key, e = KeyErr key
                    /\ ((key ∈ linear_keys /\ key ∉ lp.*1)
                        \/ (key ∈ keplerian_keys /\ key ∉ kp.*1))).
Proof.
  pose proof (attribute_cell_cases c lp kp) as Hc.
  destruct (attribute_cell c lp kp) as [e|ad].
  - destruct Hc as (key & -> & Hmiss). split.
    + split; [intros [ad Had]; done|]. intros [Hl Hk].
      destruct Hmiss as [[Hin Hnot]|[Hin Hnot]]; exfalso; auto.
    + intros e [= <-]. eauto.
  - destruct Hc as (_ & Hl & Hk). split; [|done].
    split; [done|]. intros _. eauto.
Qed.

(** X5.  When the cell that fills the table of attributes returns, the
    table has these 24 columns in this order, no two under the same name (no
    assignment overwrites an earlier one), and its entries are: the
    catalogue position; the fitted parallax; the fitted proper motions, each
    under two names; the reference epoch; the companion mass
    [pjGet_m2(m1_MS * MS_kg, a_m, P) / MJ_kg] with [a_m] converted from
    the fitted [as] and parallax; the primary mass from the catalogue; the
    period, eccentricity and semi-major axis, period and eccentricity each
    under two names; the three angles through [np.rad2deg]; the periastron
    time once shifted by the reference epoch and once as fitted; the fitted
    offsets; the source identifier. *)
Theorem attribute_cell_table `{Pystrometry} (c : Catalog)
    (lp kp : list (string * float)) (ad : list (string * value)) :
  attribute_cell c lp kp = inr ad ->
  ad = attribute_table c lp kp
  /\ ad.*1 = attribute_keys
  /\ NoDup ad.*1.
Proof.
  intros Hrun. pose proof (attribute_cell_cases c lp kp) as Hc.
  rewrite Hrun in Hc. destruct Hc as (-> & _). split_and!.
  - reflexivity.
  - reflexivity.
  - change ((attribute_table c lp kp).*1) with attribute_keys.
    apply (bool_decide_unpack (NoDup _)). vm_compute. reflexivity.
Qed.

Lemma attribute_cell_table_witness :
  let ad := @attribute_table SampleCells.pystrometry SampleCells.catalog
              SampleCells.linear_parameters SampleCells.keplerian_parameters in
  @attribute_cell SampleCells.pystrometry SampleCells.catalog
    SampleCells.linear_parameters SampleCells.keplerian_parameters = inr ad
  /\ ad.*1 = attribute_keys.
Proof.
  assert (@attribute_cell SampleCells.pystrometry SampleCells.catalog
            SampleCells.linear_parameters SampleCells.keplerian_parameters
          = inr (@attribute_table SampleCells.pystrometry SampleCells.catalog
                   SampleCells.linear_parameters
                   SampleCells.keplerian_parameters)) as Hrun
    by (vm_compute; reflexivity).
  split; [exact Hrun|].
  apply (@attribute_cell_table SampleCells.pystrometry _ _ _ _ Hrun).
Defined.

(** ** The loop and the notebook as functions of the state *)

Lemma gt_nan (f x : float) : PrimFloat.is_nan f = true -> Py.gt f x = false.
Proof.
  unfold Py.gt.
  rewrite FloatOrder.is_nan_spec, FloatAxioms.ltb_spec, negb_true_iff.
  generalize (Prim2SF f) (Prim2SF x). intros a b Ha.
  unfold SFltb, SFeqb, SFcompare in *. FloatOrder.sf_cases.
Qed.

Lemma owns_lookup h self o d s :
  owns h self o d s -> h !! self = Some (CModel o).
Proof. by intros (Hself & _). Qed.

Section NotebookRuns.
Context `{Kepmodel}.

Lemma detection_loop_owns model o s n w :
  owns (heap w) model o [] s -> o_lin_name o <> o_fit_param o ->
  exists d' w',
    detection_loop model n w = Ok tt w'
    /\ owns (heap w') model o d' (loop_state (seq 0 n) s)
    /\ d'.*1 = pretty <$> seq 0 (length d')
    /\ (length d' <= n)%nat.
Proof.
  intros Ho Hne.
  destruct (for_range_owns model o n [] s w Ho) as (d' & w' & Hr & Ho' & _ & Hlab & Hle).
  { split; [exact Hne|apply NoDup_nil_2]. }
  { reflexivity. }
  exists d', w'. simpl in Hle. split_and!; [exact Hr|exact Ho'|exact Hlab|lia].
Qed.

Lemma notebook_run (df : DataFrame) w :
  exists single model o w',
    notebook df w = Ok (single, model) w'
    /\ single <> model
    /\ state_of single (heap w') = Some (single_star_state df)
    /\ exists d, owns (heap w') model o d (loop_state [0%nat] (single_star_state df))
                 /\ (length d <= 1)%nat.
Proof.
  destruct (single_star_cell_run df w) as (single & o & w1 & Hr1 & Ho1 & Hne1).
  destruct (deepcopy_owns single o [] _ w1 Ho1)
    as (model & o' & d' & w2 & Hr2 & _ & Hsub & Hnew & Ho2 & [Hne2 _] & Hd').
  destruct d' as [|? ?]; [|done]. clear Hd'.
  destruct (detection_loop_owns model o' _ 1 w2 Ho2 Hne2)
    as (d & w3 & Hr3 & Ho3 & _ & Hle).
  assert (heap w1 ⊆ heap w3) as Hkeep.
  { pose proof (keeps_keplerian_cell (heap w1) single w1 (apart_refl _)) as Hk.
    unfold wp, keplerian_cell in Hk.
    rewrite (bind_Ok _ _ _ _ _ Hr2), (bind_Ok _ _ _ _ _ Hr3) in Hk.
    simpl in Hk. apply Hk. }
  exists single, model, o', w3. split_and!.
  - unfold notebook, keplerian_cell.
    rewrite (bind_Ok _ _ _ _ _ Hr1).
    change ((model ← (model ← deepcopy single; detection_loop model 1;; mret model);
             mret (single, model)) w1 = Ok (single, model) w3).
    unfold mbind at 1. unfold M_bind, bind.
    rewrite (bind_Ok _ _ _ _ _ Hr2), (bind_Ok _ _ _ _ _ Hr3). reflexivity.
  - intros ->. apply owns_lookup in Ho1. congruence.
  - eapply state_of_mono; [exact Hkeep|]. apply state_of_owns. eauto.
  - exists d. split; [exact Ho3|exact Hle].
Qed.

End NotebookRuns.

(** ** What the cells do, end to end *)

(** X6.  Whenever the single-star cell returns, the model it leaves has
    exactly the five regressors ra, dec, parallax, mura and mudec, in this
    order, the six free parameters lin.ra, lin.dec, lin.parallax, lin.mura,
    lin.mudec and cov.jit.sig, in this order, the measurement errors of the
    data frame, and no Keplerian component. *)
Theorem single_star_cell_model `{Kepmodel} (df : DataFrame) (w : world)
    (self : loc) (w' : world) :
  single_star_cell df w = Ok self w' ->
  exists s,
    state_of self (heap w') = Some s
    /\ m_lin_name s = ["ra"; "dec"; "parallax"; "mura"; "mudec"]%string
    /\ m_fit_param s = ["lin.ra"; "lin.dec"; "lin.parallax"; "lin.mura";
                        "lin.mudec"; "cov.jit.sig"]%string
    /\ length (m_lin_M s) = 5%nat
    /\ m_cov_err s = col centroidPosAlError_mas df
    /\ m_keplerian s = [].
Proof.
  intros Hrun.
  destruct (single_star_cell_run df w) as (self0 & o & w0 & Hrun0 & Ho & _).
  rewrite Hrun in Hrun0. injection Hrun0 as <- <-.
  exists (single_star_state df). split_and!.
  - apply state_of_owns. eauto.
  - reflexivity.
  - reflexivity.
  - reflexivity.
  - reflexivity.
  - reflexivity.
Qed.

Lemma single_star_cell_model_witness :
  exists s,
    state_of Sample.single_star_model (heap (Sample.before 0.5)) = Some s
    /\ m_lin_name s = ["ra"; "dec"; "parallax"; "mura"; "mudec"]%string.
Proof.
  destruct (@single_star_cell_model (Sample.numerics 0.5)
              Sample.simulated_astrometry Sample.empty_world
              Sample.single_star_model (Sample.before 0.5))
    as (s & Hs & Hn & _).
  - vm_compute. reflexivity.
  - exists s. split; [exact Hs|exact Hn].
Defined.

(** X7.  [copy.deepcopy] of a model returns a new object whose state is
    the state of the original, entry by entry; the original is as it was,
    and no call to kepmodel is made. *)
Theorem deepcopy_state (self : loc) (s : AstroModel) (w : world) :
  state_of self (heap w) = Some s ->
  exists model w',
    deepcopy self w = Ok model w'
    /\ heap w !! model = None
    /\ heap w ⊆ heap w'
    /\ trace w' = trace w
    /\ state_of model (heap w') = Some s
    /\ state_of self (heap w') = Some s.
Proof.
  intros Hs. pose proof Hs as Hs0.
  apply state_of_owns in Hs as (o & d & Ho).
  destruct (deepcopy_owns self o d s w Ho)
    as (model & o' & d' & w' & Hr & Ht & Hsub & Hnew & Ho' & _).
  exists model, w'. split_and!; [exact Hr|exact Hnew|exact Hsub|exact Ht| |].
  - apply state_of_owns. eauto.
  - by eapply state_of_mono.
Qed.

Lemma deepcopy_state_witness :
  exists model w',
    deepcopy Sample.single_star_model (Sample.before 0.5) = Ok model w'
    /\ state_of model (heap w') = Some (Sample.state 0.5).
Proof.
  destruct (deepcopy_state Sample.single_star_model (Sample.state 0.5)
              (Sample.before 0.5)) as (model & w' & Hr & _ & _ & _ & Hs & _).
  - vm_compute. reflexivity.
  - exists model, w'. split; [exact Hr|exact Hs].
Defined.

Section LoopFacts.
Context `{Kepmodel}.

(** X8.  A false-alarm probability that is NaN does not stop the loop:
    [faplvl > fap_threshold] is false for a NaN, so the iteration never
    breaks, and it goes on to call [add_keplerian_from_period] with the
    period at the peak and then [fit]. *)
Theorem nan_fap_accepted (model : loc) (kpla : nat) (s : AstroModel)
    (f : float) (w : world) :
  state_of model (heap w) = Some s ->
  faplvl s = Some f ->
  PrimFloat.is_nan f = true ->
  (forall w', detection_iteration model kpla w <> Ok Break w')
  /\ exists period rest,
       kmax s ≫= (P !!.) = Some period
       /\ trace (world_of (detection_iteration model kpla w))
          = trace w ++ search_calls model s
            ++ CallAddKeplerianFromPeriod model period :: CallFit model :: rest.
Proof.
  intros Hs Hf Hnan.
  destruct (iteration_values s)
    as (k & nustar & peak & numax & Hk & Hnk & Hpk & Hnm & HP & Hf' & _).
  rewrite Hf in Hf'. injection Hf' as Hf'.
  pose proof (detection_iteration_run model kpla s w k peak numax _
                Hs Hk Hpk Hnm HP) as Hrun. cbv zeta in Hrun.
  rewrite <- Hf', (gt_nan f _ Hnan) in Hrun.
  rewrite (search_calls_eq model s k peak numax Hk Hpk Hnm).
  split.
  - intros w'. rewrite Hrun. apply accept_not_Break.
  - rewrite Hrun.
    match goal with
    | |- context [world_of (?m ?v)] =>
        destruct (accept_trace model
                    (PrimFloat.div (PrimFloat.mul (Py.float_of_int 2) Py.np_pi)
                                   nustar) kpla s v Hs) as [rest Hrest]
    end.
    eexists _, rest. split; [rewrite Hk; exact HP|].
    rewrite Hrest. simpl. rewrite <- app_assoc. reflexivity.
Qed.

(** X9.  [break] ends the loop whatever the range: when the peak of the
    first periodogram has a false-alarm probability above the threshold,
    the loop over [range(n)], for any [n >= 1], returns after a single
    search (residuals, periodogram, fap), and no object has changed. *)
Theorem break_ends_loop (model : loc) (n : nat) (s : AstroModel)
    (f : float) (w : world) :
  state_of model (heap w) = Some s ->
  faplvl s = Some f ->
  Py.gt f fap_threshold = true ->
  detection_loop model (S n) w
  = Ok tt {| heap := heap w; trace := trace w ++ search_calls model s |}.
Proof.
  intros Hs Hf Hgt.
  destruct (iteration_values s)
    as (k & nustar & peak & numax & Hk & Hnk & Hpk & Hnm & HP & Hf' & _).
  rewrite Hf in Hf'. injection Hf' as Hf'.
  pose proof (detection_iteration_run model 0 s w k peak numax _
                Hs Hk Hpk Hnm HP) as Hrun. cbv zeta in Hrun.
  rewrite <- Hf', Hgt in Hrun.
  unfold detection_loop.
  change (seq 0 (S n)) with (0%nat :: seq 1 n).
  rewrite for_range_cons, Hrun.
  rewrite (search_calls_eq model s k peak numax Hk Hpk Hnm). reflexivity.
Qed.

(** X12.  When the peak found on the single-star residuals has a
    false-alarm probability above the threshold, the notebook leaves in
    [model] a copy of the single-star fit, and the next cell, which reads
    [model.keplerian['0']], raises KeyError: it presumes a detection. *)
Theorem notebook_rejected (df : DataFrame) (f : float) (w : world) :
  faplvl (single_star_state df) = Some f ->
  Py.gt f fap_threshold = true ->
  exists single model w',
    notebook df w = Ok (single, model) w'
    /\ state_of model (heap w') = Some (single_star_state df)
    /\ parameter_cell (single_star_state df) = inl (KeyErr "0").
Proof.
  intros Hf Hgt.
  destruct (notebook_run df w)
    as (single & model & o & w' & Hr & Hne & Hs & d & Ho & _).
  exists single, model, w'. split_and!; [exact Hr| |reflexivity].
  apply state_of_owns. exists o, d.
  rewrite loop_state_cons, Hf in Ho.
  destruct (iteration_values (single_star_state df))
    as (k & nustar & peak & numax & Hk & Hnk & Hpk & Hnm & HP & _).
  rewrite Hk in Ho. simpl in Ho. rewrite HP, Hgt in Ho. exact Ho.
Qed.

End LoopFacts.

Lemma nan_fap_accepted_witness :
  PrimFloat.is_nan PrimFloat.nan = true
  /\ forall w',
       @detection_iteration (Sample.numerics PrimFloat.nan)
         Sample.single_star_model 0 (Sample.before PrimFloat.nan)
       <> Ok Break w'.
Proof.
  split; [reflexivity|].
  apply (@nan_fap_accepted (Sample.numerics PrimFloat.nan)
           Sample.single_star_model 0 (Sample.state PrimFloat.nan)
           PrimFloat.nan (Sample.before PrimFloat.nan));
    vm_compute; reflexivity.
Defined.

Lemma break_ends_loop_witness :
  Py.gt 0.5 fap_threshold = true
  /\ heap (world_of (@detection_loop (Sample.numerics 0.5)
                       Sample.single_star_model 5 (Sample.before 0.5)))
     = heap (Sample.before 0.5).
Proof.
  split; [vm_compute; reflexivity|].
  rewrite (@break_ends_loop (Sample.numerics 0.5) Sample.single_star_model 4
             (Sample.state 0.5) 0.5 (Sample.before 0.5));
    [reflexivity|vm_compute; reflexivity..].
Defined.

Lemma notebook_rejected_witness :
  exists single model w',
    @notebook (Sample.numerics 0.5) Sample.simulated_astrometry
      Sample.empty_world = Ok (single, model) w'
    /\ state_of model (heap w')
       = Some (@single_star_state (Sample.numerics 0.5)
                 Sample.simulated_astrometry).
Proof.
  destruct (@notebook_rejected (Sample.numerics 0.5)
              Sample.simulated_astrometry 0.5 Sample.empty_world)
    as (single & model & w' & Hr & Hs & _).
  - vm_compute. reflexivity.
  - vm_compute. reflexivity.
  - exists single, model, w'. split; [exact Hr|exact Hs].
Defined.

Lemma not_kep_name (x name : string) (ps : list string) :
  String.prefix "kep." x = false -> x ∉ kep_names name ps.
Proof.
  intros Hx Hin. unfold kep_names in Hin.
  apply list_elem_of_fmap in Hin as (p & -> & _). simpl in Hx.
  destruct name; simpl in Hx; discriminate.
Qed.

Lemma filter_keep {A} (Q : A -> Prop) `{forall x, Decision (Q x)} (l : list A) :
  Forall Q l -> filter Q l = l.
Proof.
  induction 1 as [|x l Hx _ IH]; [done|].
  by rewrite filter_cons_True, IH.
Qed.

Lemma filter_drop {A} (Q : A -> Prop) `{forall x, Decision (Q x)} (l : list A) :
  Forall (fun x => ~ Q x) l -> filter Q l = [].
Proof.
  induction 1 as [|x l Hx _ IH]; [done|].
  by rewrite filter_cons_False.
Qed.

Section Accepted.
Context `{Kepmodel}.

Lemma accept_state_first (period : float) (s : AstroModel) :
  m_keplerian s = [] ->
  Forall (fun x => String.prefix "kep." x = false) (m_fit_param s) ->
  exists k,
    m_keplerian (accept_state 0 period s)
    = [("0"%string, {| k_param := param; k_par := convert_par k param |})]
    /\ m_lin_name (accept_state 0 period s) = m_lin_name s
    /\ m_lin_par (accept_state 0 period s)
       = fit_lin_par (fit_solution (add_keplerian_state period s))
    /\ m_fit_param (accept_state 0 period s)
       = m_fit_param s ++ kep_names "0" param.
Proof.
  intros Hk Hfp. unfold accept_state, refit_state, add_keplerian_state.
  rewrite Hk. cbn [length m_keplerian dict_set fmap list_fmap].
  change (pretty 0%nat) with "0"%string.
  cbn [dict_get refit_keplerian fst snd]. rewrite decide_True by reflexivity.
  eexists. split_and!; try reflexivity.
  cbn [m_fit_param set_keplerian_param_state k_param].
  f_equal. rewrite filter_app, filter_keep, filter_drop.
  - by rewrite app_nil_r.
  - apply Forall_forall. intros x Hx Hnot. exact (Hnot Hx).
  - eapply Forall_impl; [exact Hfp|]. intros x Hx. by apply not_kep_name.
Qed.

End Accepted.

Lemma zip_keys {A B} (keys : list A) (values : list B) :
  (length keys <= length values)%nat -> (zip keys values).*1 = keys.
Proof.
  revert values. induction keys as [|key keys IH]; intros [|v values] Hlen;
    simpl in *; try done; try lia.
  rewrite IH; [done|lia].
Qed.

Section AllCells.
Context `{Kepmodel} `{Pystrometry}.

(** X13.  When the peak found on the single-star residuals has a
    false-alarm probability that is not above the threshold, and kepmodel
    returns one value per parameter name (from [set_keplerian_param]) and
    one coefficient per regressor (from [fit]), the cells run through
    without KeyError or IndexError.  [model] then has the single component
    ['0'], parametrized by P, Tp, as, e, w, i, bigw; its free parameters are
    the six of the single-star model followed by the seven of the
    component; [keplerian_parameters] has exactly these seven keys and
    [linear_parameters] the five regressor names, each paired with the
    fitted value at its position; and the table of attributes is filled. *)
Theorem notebook_accepted (df : DataFrame) (c : Catalog) (f : float)
    (w : world) :
  faplvl (single_star_state df) = Some f ->
  Py.gt f fap_threshold = false ->
  (forall k, length (convert_par k param) = length param) ->
  (forall s, length (fit_lin_par (fit_solution s)) = length (m_lin_par s)) ->
  exists single model w' s k,
    notebook df w = Ok (single, model) w'
    /\ state_of model (heap w') = Some s
    /\ m_keplerian s = [("0"%string, k)]
    /\ k_param k = param
    /\ m_fit_param s
       = ["lin.ra"; "lin.dec"; "lin.parallax"; "lin.mura"; "lin.mudec";
          "cov.jit.sig"]%string ++ kep_names "0" param
    /\ parameter_cell s
       = inr (zip (m_lin_name s) (m_lin_par s), zip param (k_par k))
    /\ m_lin_name s = ["ra"; "dec"; "parallax"; "mura"; "mudec"]%string
    /\ (zip (m_lin_name s) (m_lin_par s)).*1 = m_lin_name s
    /\ (zip param (k_par k)).*1 = param
    /\ attribute_cell c (zip (m_lin_name s) (m_lin_par s))
                        (zip param (k_par k))
       = inr (attribute_table c (zip (m_lin_name s) (m_lin_par s))
                                (zip param (k_par k))).
Proof.
  intros Hf Hgt Hconv Hfit.
  destruct (notebook_run df w)
    as (single & model & o & w' & Hr & Hne & Hs & d & Ho & _).
  destruct (iteration_values (single_star_state df))
    as (kk & nustar & peak & numax & Hk & Hnk & Hpk & Hnm & HP & _).
  rewrite loop_state_cons, Hf, Hk in Ho.
  change (Some kk ≫= (P !!.)) with (P !! kk) in Ho.
  rewrite HP, Hgt, loop_state_nil in Ho.
  set (period := (Py.float_of_int 2 * Py.np_pi / nustar)%float) in *.
  destruct (accept_state_first period (single_star_state df))
    as (k1 & Hkep & Hnames & Hpar & Hfp).
  { reflexivity. }
  { repeat constructor. }
  set (s := accept_state 0 period (single_star_state df)) in *.
  set (k := {| k_param := param; k_par := convert_par k1 param |}) in *.
  assert (length (m_lin_name s) <= length (m_lin_par s))%nat as Hlin.
  { rewrite Hnames, Hpar, Hfit. simpl. rewrite Hfit. simpl. lia. }
  assert (length param <= length (k_par k))%nat as Hkp.
  { change (k_par k) with (convert_par k1 param). rewrite Hconv. lia. }
  assert (NoDup param) as Hnd.
  { apply (bool_decide_unpack (NoDup _)). vm_compute. reflexivity. }
  assert (NoDup (m_lin_name s)) as Hndl.
  { rewrite Hnames. apply (bool_decide_unpack (NoDup _)). vm_compute. reflexivity. }
  assert (parameter_cell s
          = inr (zip (m_lin_name s) (m_lin_par s), zip param (k_par k))) as Hcell.
  { unfold parameter_cell. rewrite Hkep.
    change (getitem [("0"%string, k)] "0") with (inr k : pyerr + Keplerian).
    cbv beta iota. change (k_param k) with param.
    rewrite (enumerate_into_append param [] 0 (k_par k) Hnd);
      [|intros; apply not_elem_of_nil|exact Hkp].
    rewrite (enumerate_into_append (m_lin_name s) [] 0 (m_lin_par s) Hndl);
      [|intros; apply not_elem_of_nil|exact Hlin].
    reflexivity. }
  assert ((zip (m_lin_name s) (m_lin_par s)).*1 = m_lin_name s) as Hlk
    by (by apply zip_keys).
  assert ((zip param (k_par k)).*1 = param) as Hkk by (by apply zip_keys).
  exists single, model, w', s, k. split_and!.
  - exact Hr.
  - apply state_of_owns. eauto.
  - exact Hkep.
  - reflexivity.
  - rewrite Hfp. reflexivity.
  - exact Hcell.
  - exact Hnames.
  - exact Hlk.
  - exact Hkk.
  - pose proof (attribute_cell_cases c (zip (m_lin_name s) (m_lin_par s))
                  (zip param (k_par k))) as Hc.
    destruct (attribute_cell c _ _) as [e|ad].
    + exfalso. destruct Hc as (key & _ & [[Hin Hnot]|[Hin Hnot]]).
      * apply Hnot. rewrite Hlk, Hnames.
        change (key ∈ ["ra"; "dec"; "parallax"; "mura"; "mudec"]%string).
        unfold linear_keys in Hin. rewrite !elem_of_cons in *. tauto.
      * apply Hnot. rewrite Hkk.
        unfold keplerian_keys, param in *. rewrite !elem_of_cons in *. tauto.
    + destruct Hc as (-> & _). reflexivity.
Qed.

End AllCells.

Lemma notebook_accepted_witness :
  exists single model w' s k,
    @notebook (Sample.numerics 0) Sample.simulated_astrometry
      Sample.empty_world = Ok (single, model) w'
    /\ state_of model (heap w') = Some s
    /\ m_keplerian s = [("0"%string, k)].
Proof.
  destruct (@notebook_accepted (Sample.numerics 0) SampleCells.pystrometry
              Sample.simulated_astrometry SampleCells.catalog 0
              Sample.empty_world)
    as (single & model & w' & s & k & Hr & Hs & Hk & _).
  - vm_compute. reflexivity.
  - vm_compute. reflexivity.
  - intros k. reflexivity.
  - intros s. apply length_fmap.
  - exists single, model, w', s, k. split_and!; [exact Hr|exact Hs|exact Hk].
Defined.
